(** * gemini_transcribe.py: the segmented transcription pipeline

    A shallow embedding of [GeminiTranscriber] (src/gemini_transcribe.py):
    audio inventory, segment planner and extractor, retrying transcription
    worker, result merger, transcript writer and cleanup.

    Conventions of the embedding
    - a Python [str] is the list of its code points ([pystr]);
    - a Python [float] is the rational it denotes ([Q]), and a float
      operation rounds to the nearest float ([binary64]); the planner's
      loop is given with the rounded sum ([split_loop_binary64]) and with
      the exact sum ([split_loop]), which agree wherever the sum is exact;
    - the file system is a finite map from paths to nodes;
    - every external collaborator the source guards with [try/except]
      (ffprobe, ffmpeg, the remote service, the transcript write, unlink)
      is a field of [Env] saying how the call ends;
    - the side effects of a run are recorded in an event log next to the
      file system ([World]). Logging calls are not modelled. *)

From Stdlib Require Import ZArith QArith Qround Qminmax Qabs Lqa Lia List Bool.
From Stdlib Require Import Ascii String Decimal DecimalPos DecimalN.
From Stdlib Require Import Sorting.Permutation Sorting.Sorted.
From Stdlib Require Qcanon.
From stdpp Require Import base decidable countable list sorting gmap fin_maps.

Import ListNotations.
Local Open Scope Z_scope.

(** ** Python strings *)

Definition pystr := list N.

(** An ASCII literal of the source as a [pystr]. *)
Definition lit (s : string) : pystr :=
  List.map N_of_ascii (list_ascii_of_string s).

Definition DOT : N := 46%N.

(** [str.isspace] on one code point (the Unicode White_Space set plus the
    four information separators, as CPython has it). *)
Definition isspace (c : N) : bool :=
  ((9 <=? c) && (c <=? 13) || (28 <=? c) && (c <=? 32)
   || (c =? 133) || (c =? 160) || (c =? 5760)
   || (8192 <=? c) && (c <=? 8202)
   || (c =? 8232) || (c =? 8233) || (c =? 8239) || (c =? 8287)
   || (c =? 12288))%N.

Fixpoint lstrip (s : pystr) : pystr :=
  match s with
  | [] => []
  | c :: r => if isspace c then lstrip r else s
  end.

Definition rstrip (s : pystr) : pystr := rev (lstrip (rev s)).

(** [str.strip()] *)
Definition strip (s : pystr) : pystr := rstrip (lstrip s).

(** [str.lower()] on the code points whose lower case is ASCII: the
    letters [A-Z] and the Kelvin sign (U+212A), which lowers to [k]. Every
    other code point is left alone, so [lower s] is what Python returns
    whenever that is an ASCII string, as the supported extensions are. *)
Definition lower_char (c : N) : N :=
  if ((65 <=? c) && (c <=? 90))%N then (c + 32)%N
  else if (c =? 8490)%N then 107%N
  else c.

Definition lower (s : pystr) : pystr := List.map lower_char s.

(** [s.startswith('.')] *)
Definition startswith_dot (s : pystr) : bool :=
  match s with
  | c :: _ => (c =? DOT)%N
  | [] => false
  end.

(** [s.rfind(c)]: index of the last occurrence ([None] for Python's -1). *)
Fixpoint rfind (c : N) (s : pystr) : option nat :=
  match s with
  | [] => None
  | x :: r =>
      match rfind c r with
      | Some i => Some (S i)
      | None => if (x =? c)%N then Some 0%nat else None
      end
  end.

(** ** Number formatting *)

Definition digit_char (d : N) : N := (48 + d)%N.

Fixpoint uint_chars (u : Decimal.uint) : pystr :=
  match u with
  | Decimal.Nil => []
  | Decimal.D0 r => digit_char 0 :: uint_chars r
  | Decimal.D1 r => digit_char 1 :: uint_chars r
  | Decimal.D2 r => digit_char 2 :: uint_chars r
  | Decimal.D3 r => digit_char 3 :: uint_chars r
  | Decimal.D4 r => digit_char 4 :: uint_chars r
  | Decimal.D5 r => digit_char 5 :: uint_chars r
  | Decimal.D6 r => digit_char 6 :: uint_chars r
  | Decimal.D7 r => digit_char 7 :: uint_chars r
  | Decimal.D8 r => digit_char 8 :: uint_chars r
  | Decimal.D9 r => digit_char 9 :: uint_chars r
  end.

(** Decimal digits of a natural number, most significant first. *)
Definition digits (n : N) : pystr := uint_chars (N.to_uint n).

Definition MINUS : N := 45%N.

(** [f"{z}"] for an [int]. *)
Definition fmt_d (z : Z) : pystr :=
  if z <? 0 then MINUS :: digits (Z.abs_N z) else digits (Z.abs_N z).

(** [f"{z:0wd}"]: sign first, then zeros up to the total width [w]. *)
Definition fmt_0d (w : nat) (z : Z) : pystr :=
  let ds := digits (Z.abs_N z) in
  if z <? 0
  then MINUS :: repeat (digit_char 0) (w - 1 - length ds) ++ ds
  else repeat (digit_char 0) (w - length ds) ++ ds.

(** Rounding of [f"{x:.0f}"]: to the nearest integer, ties to even. *)
Definition round_half_even (q : Q) : Z :=
  let f := Qfloor q in
  let r := (q - inject_Z f)%Q in
  match (r ?= 1 # 2)%Q with
  | Lt => f
  | Gt => f + 1
  | Eq => if Z.even f then f else f + 1
  end.

(** [f"{x:.0f}"] for a [float]; a negative value keeps its sign even when it
    rounds to zero. *)
Definition fmt_0f (q : Q) : pystr :=
  let ds := digits (Z.abs_N (round_half_even q)) in
  if Qle_bool 0 q then ds else MINUS :: ds.

(** [int(x)] for a [float]: truncation toward zero. *)
Definition int_of_float (q : Q) : Z := Z.quot (Qnum q) (Zpos (Qden q)).

(** ** Paths *)

(** A [pathlib.Path]: the directory components and the final component. *)
Record Path := mkPath { parent : list pystr; name : pystr }.

#[global] Instance Path_eq_dec : EqDecision Path.
Proof. solve_decision. Defined.

#[global] Instance Path_countable : Countable Path.
Proof.
  refine (inj_countable' (fun p => (parent p, name p))
                         (fun x => mkPath (fst x) (snd x)) _).
  intros [d n]. reflexivity.
Defined.

(** [PurePath.suffix] *)
Definition suffix_of (nm : pystr) : pystr :=
  match rfind DOT nm with
  | Some i =>
      if ((0 <? i) && (i <? length nm - 1))%nat then drop i nm else []
  | None => []
  end.

Definition suffix (p : Path) : pystr := suffix_of (name p).

(** [PurePath.stem] *)
Definition stem (p : Path) : pystr :=
  match rfind DOT (name p) with
  | Some i =>
      if ((0 <? i) && (i <? length (name p) - 1))%nat
      then take i (name p) else name p
  | None => name p
  end.

(** [PurePath.with_suffix(s)] for a well-formed suffix [s] and a path with a
    name: the old suffix, if any, is replaced. *)
Definition with_suffix (p : Path) (s : pystr) : Path :=
  let old := suffix p in
  mkPath (parent p) (take (length (name p) - length old) (name p) ++ s).

(** [p] lies below the directory [root]. *)
Definition under (root : list pystr) (p : Path) : bool :=
  bool_decide (root `prefix_of` parent p).

(** ** Segments and results *)

(** The planner's tuple [(path, start, end)]. *)
Record Segment := mkSegment {
  seg_path : Path;
  seg_start : Q;
  seg_end : Q
}.

(** The worker's result dictionary. *)
Record TranscriptionResult := mkResult {
  text : pystr;
  start_time : Q;
  end_time : Q;
  segment_path : Path;
  processing_time : Q
}.

(** ** File system and effects *)

Inductive node :=
| Directory
| RegularFile (content : list N).

Inductive event :=
| EvProbe (p : Path)
| EvExtract (src : Path) (start len : Q) (dst : Path)
| EvRead (p : Path)
| EvTaskScheduled (seg : Path)
| EvTaskDone (seg : Path)
| EvApiCall (seg : Path) (attempt : nat)
| EvSleep (seconds : Z)
| EvWrite (p : Path)
| EvUnlink (p : Path).

Record World := mkWorld { fs : gmap Path node; log : list event }.

Definition emit (ev : event) (w : World) : World :=
  mkWorld (fs w) (log w ++ [ev]).

Definition set_fs (f : gmap Path node) (w : World) : World :=
  mkWorld f (log w).

(** One streamed response of the remote service: it raises, or it delivers
    chunks whose [text] may be [None]. *)
Inductive stream_outcome :=
| StreamRaises
| StreamChunks (chunks : list (option pystr)).

(** How writing the artifact ends: [open] fails, [open] creates the file and
    [write] fails, or both succeed. *)
Inductive write_outcome := OpenFails | WriteFails | WriteOk.

(** [ffmpeg src start len dst] is the content of the output of a run
    that exits with status 0, [None] for any other end; after such an end
    [ffmpeg_leftover] is what the run, started with [-y], left at [dst]:
    [None] when it never opened the output. *)
Record Env := mkEnv {
  ffprobe : Path -> option Q;
  ffmpeg : Path -> Q -> Q -> Path -> option (list N);
  ffmpeg_leftover : Path -> Q -> Q -> Path -> option (list N);
  generate_content_stream : Path -> nat -> stream_outcome;
  write_text : Path -> write_outcome;
  unlink_ok : Path -> bool;
  completion_order : list Segment -> list Segment;
  strftime : pystr;
  time_time : Q
}.

(** The instance attributes set by [__init__]. *)
Record GeminiTranscriber := mkTranscriber {
  audio_dir : list pystr;
  audio_extensions : list pystr;
  model_name : pystr;
  max_segment_duration : Q;
  max_workers : nat;
  max_retries : nat;
  retry_delay : Z
}.

Definition default_transcriber (root : list pystr) : GeminiTranscriber :=
  {| audio_dir := root;
     audio_extensions :=
       [lit ".mp3"; lit ".wav"; lit ".m4a"; lit ".flac";
        lit ".aac"; lit ".ogg"; lit ".webm"; lit ".m4v"];
     model_name := lit "gemini-2.0-flash-exp";
     max_segment_duration := inject_Z (30 * 60);
     max_workers := 5;
     max_retries := 3;
     retry_delay := 2 |}.

(** ** Audio inventory *)

Definition is_file (f : gmap Path node) (p : Path) : bool :=
  match f !! p with
  | Some (RegularFile _) => true
  | _ => false
  end.

Definition exists_path (f : gmap Path node) (p : Path) : bool :=
  match f !! p with
  | Some _ => true
  | None => false
  end.

(** [audio_dir.rglob('*')]: every entry below the root, in the order the
    file system lists them. *)
Definition rglob (f : gmap Path node) (root : list pystr) : list Path :=
  List.filter (under root) (List.map fst (map_to_list f)).

Definition is_audio_candidate (self : GeminiTranscriber)
    (f : gmap Path node) (file_path : Path) : bool :=
  is_file f file_path
  && bool_decide (lower (suffix file_path) ∈ audio_extensions self)
  && negb (startswith_dot (name file_path)).

Definition find_audio_files (self : GeminiTranscriber)
    (f : gmap Path node) : list Path :=
  List.filter (is_audio_candidate self f) (rglob f (audio_dir self)).

Definition get_transcript_path (audio_path : Path) : Path :=
  with_suffix audio_path (lit ".txt").

Definition needs_transcription (f : gmap Path node) (audio_path : Path) : bool :=
  negb (exists_path f (get_transcript_path audio_path)).

(** ** Binary64 arithmetic

    A Python [float] is an IEEE 754 binary64 number. The finite ones are
    the rationals [m * 2^e] with [|m| < 2^53] and [-1074 <= e]; an
    arithmetic operation returns the float nearest to the exact result,
    ties going to the even mantissa. The upper end of the exponent range
    (overflow to infinity beyond 1.8e308) is not modelled. *)

(** [n] fits a mantissa of 53 bits: it is below [2^53], or a multiple of
    the power of two that leaves its 53 leading bits. *)
Definition fits_mantissa (n : Z) : bool :=
  (n <? 2 ^ 53) || (n mod 2 ^ (Z.log2 n - 52) =? 0).

(** [q] is a float: [q * 2^1074] is an integer that fits the mantissa. *)
Definition representable (q : Q) : bool :=
  let n := Qred (q * inject_Z (2 ^ 1074)) in
  (Z.pos (Qden n) =? 1) && fits_mantissa (Z.abs (Qnum n)).

(** [floor (log2 q)] for a positive [q]. *)
Definition ilog2 (q : Q) : Z :=
  let l := Z.log2 (Qnum q) - Z.log2 (Z.pos (Qden q)) in
  if Qle_bool (2 ^ l) q then l else l - 1.

(** The float nearest to [q]; a float is left as it is. *)
Definition binary64 (q : Q) : Q :=
  if representable q then q
  else
    let a := Qabs q in
    let e := Z.max (ilog2 a - 52) (-1074) in
    let m := inject_Z (round_half_even (a / 2 ^ e)) in
    if Qle_bool 0 q then (m * 2 ^ e)%Q else (- (m * 2 ^ e))%Q.

(** ** Duration prober, segment planner and extractor *)

Definition get_audio_duration (e : Env) (audio_path : Path) (w : World)
  : Q * World :=
  match ffprobe e audio_path with
  | Some duration => (duration, emit (EvProbe audio_path) w)
  | None => (0%Q, emit (EvProbe audio_path) w)
  end.

(** [int(start_time // max_segment_duration) + 1]. Float floor division
    goes through the exact remainder [fmod], so for a quotient below [2^53]
    it is the floor of the exact quotient. *)
Definition segment_index (self : GeminiTranscriber) (start : Q) : Z :=
  Qfloor (start / max_segment_duration self) + 1.

Definition segment_file (self : GeminiTranscriber) (audio_path : Path)
    (start : Q) : Path :=
  mkPath (parent audio_path)
         (fmt_0d 3 (segment_index self start) ++ suffix audio_path).

(** A zero threshold makes the floor division raise; the handler turns that
    into [None] before ffmpeg is started. A run of ffmpeg that fails returns
    [None] as well, and the output it may have created or truncated is not
    removed. *)
Definition _create_segment_file (self : GeminiTranscriber) (e : Env)
    (audio_path : Path) (start finish : Q) (w : World)
  : option Path * World :=
  if Qeq_bool (max_segment_duration self) 0 then (None, w)
  else
    let dst := segment_file self audio_path start in
    let len := binary64 (finish - start) in
    let w1 := emit (EvExtract audio_path start len dst) w in
    match ffmpeg e audio_path start len dst with
    | Some bytes => (Some dst, set_fs (<[dst := RegularFile bytes]> (fs w1)) w1)
    | None =>
        match ffmpeg_leftover e audio_path start len dst with
        | Some bytes =>
            (None, set_fs (<[dst := RegularFile bytes]> (fs w1)) w1)
        | None => (None, w1)
        end
    end.

(** The [while current_time < duration] loop with the sum
    [current_time + max_segment_duration] taken exactly; [None] when the
    fuel runs out before the loop ends. This is the loop of the source
    wherever the float sum is exact, as it is for a threshold of whole
    seconds such as the default and a duration up to [2^53] seconds;
    [split_loop_binary64] is the loop with the rounded sum. *)
Fixpoint split_loop (fuel : nat) (self : GeminiTranscriber) (e : Env)
    (audio_path : Path) (duration current_time : Q)
    (segments : list Segment) (w : World)
  : option (list Segment * World) :=
  if Qle_bool duration current_time then Some (segments, w)
  else
    match fuel with
    | O => None
    | S fuel' =>
        let end_time := Qmin (current_time + max_segment_duration self) duration in
        let '(sp, w1) :=
          _create_segment_file self e audio_path current_time end_time w in
        let segments1 :=
          match sp with
          | Some p => segments ++ [mkSegment p current_time end_time]
          | None => segments
          end in
        split_loop fuel' self e audio_path duration end_time segments1 w1
    end.

Definition split_audio_file (fuel : nat) (self : GeminiTranscriber) (e : Env)
    (audio_path : Path) (w : World) : option (list Segment * World) :=
  let '(duration, w1) := get_audio_duration e audio_path w in
  if Qle_bool duration (max_segment_duration self)
  then Some ([mkSegment audio_path 0 duration], w1)
  else split_loop fuel self e audio_path duration 0 [] w1.

(** The same loop with the sum rounded as the float addition of the
    source rounds it. *)
Fixpoint split_loop_binary64 (fuel : nat) (self : GeminiTranscriber) (e : Env)
    (audio_path : Path) (duration current_time : Q)
    (segments : list Segment) (w : World)
  : option (list Segment * World) :=
  if Qle_bool duration current_time then Some (segments, w)
  else
    match fuel with
    | O => None
    | S fuel' =>
        let end_time :=
          Qmin (binary64 (current_time + max_segment_duration self))
               duration in
        let '(sp, w1) :=
          _create_segment_file self e audio_path current_time end_time w in
        let segments1 :=
          match sp with
          | Some p => segments ++ [mkSegment p current_time end_time]
          | None => segments
          end in
        split_loop_binary64 fuel' self e audio_path duration end_time
                            segments1 w1
    end.

Definition split_audio_file_binary64 (fuel : nat) (self : GeminiTranscriber)
    (e : Env) (audio_path : Path) (w : World)
  : option (list Segment * World) :=
  let '(duration, w1) := get_audio_duration e audio_path w in
  if Qle_bool duration (max_segment_duration self)
  then Some ([mkSegment audio_path 0 duration], w1)
  else split_loop_binary64 fuel self e audio_path duration 0 [] w1.

(** ** Transcription worker *)

(** [encode_audio_to_base64]: the bytes of the file, [None] when it cannot
    be read. *)
Definition encode_audio_to_base64 (f : gmap Path node) (audio_path : Path)
  : option (list N) :=
  match f !! audio_path with
  | Some (RegularFile bytes) => Some bytes
  | _ => None
  end.

(** The accumulation loop over the streamed chunks. *)
Definition accumulate (chunks : list (option pystr)) : pystr :=
  fold_left
    (fun full_text chunk =>
       match chunk with
       | Some (c :: t) => full_text ++ c :: t
       | _ => full_text
       end)
    chunks [].

(** [time.sleep(seconds)] for an [int] raises [ValueError] when the
    argument is negative and [OverflowError] when it is beyond what a
    64-bit count of nanoseconds holds. *)
Definition sleep_raises (seconds : Z) : bool :=
  (seconds <? 0) || (9223372036 <? seconds).

(** The body of [for attempt in range(max_retries)], over the attempts that
    remain. An exception of [time.sleep], raised inside the handler, leaves
    the function, and the worker's own handler turns it into the [None]
    returned here. *)
Fixpoint retry_loop (self : GeminiTranscriber) (e : Env) (seg : Path)
    (attempts : list nat) (w : World) : option pystr * World :=
  match attempts with
  | [] => (None, w)
  | attempt :: rest =>
      let w1 := emit (EvApiCall seg attempt) w in
      match generate_content_stream e seg attempt with
      | StreamChunks chunks =>
          match strip (accumulate chunks) with
          | [] => retry_loop self e seg rest w1
          | c :: t => (Some (c :: t), w1)
          end
      | StreamRaises =>
          if (attempt <? max_retries self - 1)%nat
          then
            let seconds := retry_delay self * (Z.of_nat attempt + 1) in
            if sleep_raises seconds then (None, w1)
            else retry_loop self e seg rest (emit (EvSleep seconds) w1)
          else retry_loop self e seg rest w1
      end
  end.

Definition _call_gemini_api_with_retry (self : GeminiTranscriber) (e : Env)
    (seg : Path) (w : World) : option pystr * World :=
  retry_loop self e seg (seq 0 (max_retries self)) w.

Definition transcribe_segment_async (self : GeminiTranscriber) (e : Env)
    (segment_info : Segment) (w : World)
  : option TranscriptionResult * World :=
  let w1 := emit (EvRead (seg_path segment_info)) w in
  match encode_audio_to_base64 (fs w1) (seg_path segment_info) with
  | None | Some [] => (None, w1)
  | Some _ =>
      match _call_gemini_api_with_retry self e (seg_path segment_info) w1 with
      | (None, w2) | (Some [], w2) => (None, w2)
      | (Some full_text, w2) =>
          (Some (mkResult (strip full_text) (seg_start segment_info)
                          (seg_end segment_info) (seg_path segment_info)
                          (time_time e)), w2)
      end
  end.

(** ** Parallel dispatch and ordering *)

(** Insertion into a list sorted by [start_time], after the entries whose
    key is not larger: the stable order [list.sort(key=...)] yields. *)
Fixpoint insert_by_start (r : TranscriptionResult)
    (l : list TranscriptionResult) : list TranscriptionResult :=
  match l with
  | [] => [r]
  | x :: rest =>
      if Qle_bool (start_time x) (start_time r)
      then x :: insert_by_start r rest
      else r :: x :: rest
  end.

(** [results.sort(key=lambda x: x['start_time'])] *)
Definition sort_by_start (l : list TranscriptionResult)
  : list TranscriptionResult :=
  fold_left (fun acc r => insert_by_start r acc) l [].

(** [asyncio.as_completed(tasks)] turns every coroutine of the list into a
    scheduled task at once, before any of them has run. *)
Definition schedule_all (tasks : list Segment) (w : World) : World :=
  fold_left (fun w s => emit (EvTaskScheduled (seg_path s)) w) tasks w.

(** Awaiting the tasks in completion order and keeping the truthy results.
    The worker coroutine contains no [await], so a task that starts runs to
    its end before the next one starts. *)
Fixpoint await_all (self : GeminiTranscriber) (e : Env)
    (completed : list Segment) (results : list TranscriptionResult)
    (w : World) : list TranscriptionResult * World :=
  match completed with
  | [] => (results, w)
  | s :: rest =>
      let '(result, w1) := transcribe_segment_async self e s w in
      await_all self e rest
        (match result with Some r => results ++ [r] | None => results end)
        (emit (EvTaskDone (seg_path s)) w1)
  end.

(** One task per segment, all handed to [as_completed] together;
    [max_workers] is not consulted. *)
Definition transcribe_audio_parallel (self : GeminiTranscriber) (e : Env)
    (segments : list Segment) (w : World)
  : list TranscriptionResult * World :=
  let tasks := segments in
  let w0 := schedule_all tasks w in
  let '(results, w1) := await_all self e (completion_order e tasks) [] w0 in
  (sort_by_start results, w1).

(** ** Result merger *)

Record MergedSegment := mkMergedSegment {
  m_start : Q;
  m_end : Q;
  m_text : pystr
}.

Record MergedTranscript := mkMerged {
  merged_text : pystr;
  merged_segments : list MergedSegment;
  total_segments : option nat;
  merged_processing_time : option Q
}.

Definition NL : N := 10%N.

(** The label ["--- 區塊 i (start_s - end_s) ---"]. *)
Definition block_label (i : nat) (start finish : Q) : pystr :=
  lit "--- " ++ [21312; 22602]%N ++ lit " " ++ fmt_d (Z.of_nat i)
  ++ lit " (" ++ fmt_0f start ++ lit "s - " ++ fmt_0f finish ++ lit "s) ---".

(** The f-string appended before a block's text. *)
Definition block_header (i : nat) (start finish : Q) : pystr :=
  [NL; NL] ++ block_label i start finish ++ [NL].

Definition merge_step (n : nat)
    (acc : pystr * list MergedSegment) (ir : nat * TranscriptionResult)
  : pystr * list MergedSegment :=
  let '(full_text, merged) := acc in
  let '(i, result) := ir in
  match strip (text result) with
  | [] => acc
  | c :: t =>
      let full_text1 :=
        if (1 <? n)%nat
        then full_text
             ++ block_header (i + 1) (start_time result) (end_time result)
        else full_text in
      (full_text1 ++ c :: t,
       merged ++ [mkMergedSegment (start_time result) (end_time result) (c :: t)])
  end.

Definition enumerate {A} (start : nat) (l : list A) : list (nat * A) :=
  combine (seq start (length l)) l.

Definition merge_transcription_results (e : Env)
    (results : list TranscriptionResult) : MergedTranscript :=
  match results with
  | [] => mkMerged [] [] None None
  | _ =>
      let '(full_text, merged) :=
        fold_left (merge_step (length results)) (enumerate 0 results) ([], []) in
      mkMerged (strip full_text) merged (Some (length results))
               (Some (time_time e))
  end.

(** ** Transcript writer and cleanup *)

(** [f"{int(t)//60:02d}:{int(t)%60:02d}"] *)
Definition mmss (t : Q) : pystr :=
  fmt_0d 2 (int_of_float t / 60) ++ lit ":" ++ fmt_0d 2 (int_of_float t mod 60).

(** One entry of the detailed listing. *)
Definition detail_entry (i : nat) (segment : MergedSegment) : pystr :=
  lit "[" ++ [21312; 22602]%N ++ lit " " ++ fmt_d (Z.of_nat i) ++ lit "] "
  ++ mmss (m_start segment) ++ lit " - " ++ mmss (m_end segment) ++ [NL]
  ++ strip (m_text segment) ++ [NL; NL].

Definition detail_section (segments : list MergedSegment) : pystr :=
  if (1 <? length segments)%nat
  then [35443; 32048; 20998; 27573]%N ++ lit ":" ++ [NL]
       ++ concat (List.map (fun '(i, s) => detail_entry i s)
                           (enumerate 1 segments))
  else [].

Definition transcript_content (self : GeminiTranscriber) (e : Env)
    (audio_path : Path) (result : MergedTranscript) : pystr :=
  [38899; 38971; 25991; 20214]%N ++ lit ": " ++ name audio_path ++ [NL]
  ++ [36681; 37636; 26178; 38291]%N ++ lit ": " ++ strftime e ++ [NL]
  ++ [20351; 29992; 27169; 22411]%N ++ lit ": " ++ model_name self ++ [NL]
  ++ [34389; 29702; 21312; 22602; 25976]%N ++ lit ": "
  ++ fmt_d (Z.of_nat (default 1%nat (total_segments result))) ++ [NL; NL]
  ++ [23436; 25972; 25991; 26412]%N ++ lit ":" ++ [NL]
  ++ strip (merged_text result) ++ [NL; NL]
  ++ detail_section (merged_segments result).

(** [open(..., 'w')] creates or truncates the file before anything is
    written; a failing [write] leaves that file behind. *)
Definition save_transcript (self : GeminiTranscriber) (e : Env)
    (audio_path : Path) (result : MergedTranscript) (w : World)
  : bool * World :=
  let transcript_path := get_transcript_path audio_path in
  let content := transcript_content self e audio_path result in
  let w1 := emit (EvWrite transcript_path) w in
  match write_text e transcript_path with
  | WriteOk =>
      (true, set_fs (<[transcript_path := RegularFile content]> (fs w1)) w1)
  | WriteFails =>
      (false, set_fs (<[transcript_path := RegularFile []]> (fs w1)) w1)
  | OpenFails => (false, w1)
  end.

(** [segment_path.unlink()] inside its [try]: a failure is logged and the
    file stays. *)
Definition unlink (e : Env) (p : Path) (w : World) : World :=
  let w1 := emit (EvUnlink p) w in
  if is_file (fs w1) p && unlink_ok e p
  then set_fs (delete p (fs w1)) w1
  else w1.

Fixpoint cleanup_segments (e : Env) (segments : list Segment)
    (original_path : Path) (w : World) : World :=
  match segments with
  | [] => w
  | s :: rest =>
      let w1 :=
        if bool_decide (seg_path s <> original_path)
           && exists_path (fs w) (seg_path s)
        then unlink e (seg_path s) w
        else w in
      cleanup_segments e rest original_path w1
  end.

(** ** Per-file orchestration

    The planner is taken with exact sums: it is the planner of the source
    for a threshold of whole seconds, as the one [__init__] sets. *)

Definition process_audio_file_async (fuel : nat) (self : GeminiTranscriber)
    (e : Env) (audio_path : Path) (w : World) : option (bool * World) :=
  if negb (needs_transcription (fs w) audio_path) then Some (true, w)
  else
    match split_audio_file fuel self e audio_path w with
    | None => None
    | Some ([], w1) => Some (false, w1)
    | Some (segments, w1) =>
        match transcribe_audio_parallel self e segments w1 with
        | ([], w2) => Some (false, w2)
        | (results, w2) =>
            let merged_result := merge_transcription_results e results in
            match save_transcript self e audio_path merged_result w2 with
            | (true, w3) =>
                Some (true, cleanup_segments e segments audio_path w3)
            | (false, w3) => Some (false, w3)
            end
        end
    end.

(** ** MIME types *)

(** The [mime_types] dictionary of [_get_mime_type]. *)
Definition mime_types : gmap pystr pystr :=
  list_to_map
    [(lit ".mp3", lit "audio/mpeg");
     (lit ".wav", lit "audio/wav");
     (lit ".m4a", lit "audio/mp4");
     (lit ".flac", lit "audio/flac");
     (lit ".aac", lit "audio/aac");
     (lit ".ogg", lit "audio/ogg");
     (lit ".webm", lit "audio/webm");
     (lit ".m4v", lit "audio/mp4")].

(** [mime_types.get(audio_path.suffix.lower(), 'audio/mpeg')] *)
Definition _get_mime_type (audio_path : Path) : pystr :=
  default (lit "audio/mpeg") (mime_types !! lower (suffix audio_path)).

(** ** Status report *)

(** The dictionary [get_status_info] returns. *)
Record StatusInfo := mkStatus {
  total_audio_files : nat;
  transcribed_files : nat;
  pending_files : nat;
  status_audio_dir : list pystr;
  supported_formats : list pystr;
  status_model : pystr;
  status_max_segment_duration : Q
}.

(** The loop collecting the transcript paths that exist. *)
Fixpoint existing_transcripts (f : gmap Path node) (audio_files : list Path)
  : list Path :=
  match audio_files with
  | [] => []
  | audio_path :: rest =>
      let transcript_path := get_transcript_path audio_path in
      if exists_path f transcript_path
      then transcript_path :: existing_transcripts f rest
      else existing_transcripts f rest
  end.

Definition get_status_info (self : GeminiTranscriber) (f : gmap Path node)
  : StatusInfo :=
  let audio_files := find_audio_files self f in
  let transcript_files := existing_transcripts f audio_files in
  {| total_audio_files := length audio_files;
     transcribed_files := length transcript_files;
     pending_files := length audio_files - length transcript_files;
     status_audio_dir := audio_dir self;
     supported_formats := audio_extensions self;
     status_model := model_name self;
     status_max_segment_duration := max_segment_duration self |}.

(** ** The run over all audio files *)

(** The three counters of [process_all_audio_files], as its final log line
    reports them. *)
Record Summary := mkSummary {
  processed_count : nat;
  skipped_count : nat;
  failed_count : nat
}.

(** The [for audio_path in audio_files] loop of [process_all]. *)
Fixpoint process_all (fuel : nat) (self : GeminiTranscriber) (e : Env)
    (audio_files : list Path) (counts : Summary) (w : World)
  : option (Summary * World) :=
  match audio_files with
  | [] => Some (counts, w)
  | audio_path :: rest =>
      if negb (needs_transcription (fs w) audio_path)
      then process_all fuel self e rest
             (mkSummary (processed_count counts) (S (skipped_count counts))
                        (failed_count counts)) w
      else
        match process_audio_file_async fuel self e audio_path w with
        | None => None
        | Some (true, w1) =>
            process_all fuel self e rest
              (mkSummary (S (processed_count counts)) (skipped_count counts)
                         (failed_count counts)) w1
        | Some (false, w1) =>
            process_all fuel self e rest
              (mkSummary (processed_count counts) (skipped_count counts)
                         (S (failed_count counts))) w1
        end
  end.

(** The files are scanned once, before the first one is processed. *)
Definition process_all_audio_files (fuel : nat) (self : GeminiTranscriber)
    (e : Env) (w : World) : option (Summary * World) :=
  process_all fuel self e (find_audio_files self (fs w)) (mkSummary 0 0 0) w.

(** ** Specification vocabulary *)

(** The strides the planner walks from [current] up to [duration]: each
    stride starts where the previous one ended and carries the file the
    extractor names for its start. *)
Inductive strides (self : GeminiTranscriber) (audio_path : Path) (duration : Q)
  : Q -> list Segment -> Prop :=
| strides_done current :
    (duration <= current)%Q -> strides self audio_path duration current []
| strides_step current rest :
    (current < duration)%Q ->
    strides self audio_path duration
            (Qmin (current + max_segment_duration self) duration) rest ->
    strides self audio_path duration current
            (mkSegment (segment_file self audio_path current) current
                       (Qmin (current + max_segment_duration self) duration)
             :: rest).

(** Each segment ends where the next one starts. *)
Fixpoint contiguous (l : list Segment) : Prop :=
  match l with
  | a :: (b :: _) as rest => seg_end a = seg_start b /\ contiguous rest
  | _ => True
  end.


(** The service answers every attempt on [seg] with a response that is
    empty once accumulated and stripped. *)
Definition always_empty (e : Env) (seg : Path) : Prop :=
  forall attempt, exists chunks,
    generate_content_stream e seg attempt = StreamChunks chunks
    /\ strip (accumulate chunks) = [].

(** The service raises on every attempt on [seg]. *)
Definition always_raises (e : Env) (seg : Path) : Prop :=
  forall attempt, generate_content_stream e seg attempt = StreamRaises.

(** The events a run appended to the log of [w]. *)
Definition appended (w w' : World) (evs : list event) : Prop :=
  fs w' = fs w /\ log w' = log w ++ evs.

(** Ascending start offsets. *)
Definition start_le (x y : TranscriptionResult) : Prop :=
  (start_time x <= start_time y)%Q.

(** No two different results of the batch share a start offset. *)
Definition distinct_starts (l : list TranscriptionResult) : Prop :=
  forall x y, x ∈ l -> y ∈ l -> (start_time x == start_time y)%Q -> x = y.


(** [needle] occurs in [hay]. *)
Definition occurs_in (needle hay : pystr) : Prop :=
  exists pre post, hay = pre ++ needle ++ post.

Fixpoint starts_with (needle hay : pystr) : bool :=
  match needle, hay with
  | [], _ => true
  | c :: n', h :: hay' => (c =? h)%N && starts_with n' hay'
  | _ :: _, [] => false
  end.

(** Decision procedure for [occurs_in]. *)
Fixpoint occurs_inb (needle hay : pystr) : bool :=
  starts_with needle hay
  || match hay with
     | [] => false
     | _ :: hay' => occurs_inb needle hay'
     end.

(** The text of the block a result contributes to a multi-block merge:
    its header line, numbered [i], then its stripped text. *)
Definition block (i : nat) (r : TranscriptionResult) : pystr :=
  block_label i (start_time r) (end_time r) ++ [NL] ++ strip (text r).

(** The blocks of a multi-block merge, numbered from [i], each introduced
    by a blank line; results without text contribute nothing but still
    consume their number. *)
Fixpoint labelled_blocks (i : nat) (rs : list TranscriptionResult) : pystr :=
  match rs with
  | [] => []
  | r :: rest =>
      match strip (text r) with
      | [] => labelled_blocks (S i) rest
      | _ => [NL; NL] ++ block i r ++ labelled_blocks (S i) rest
      end
  end.

(** The per-segment listing of a merge. *)
Fixpoint listing (rs : list TranscriptionResult) : list MergedSegment :=
  match rs with
  | [] => []
  | r :: rest =>
      match strip (text r) with
      | [] => listing rest
      | c :: t =>
          mkMergedSegment (start_time r) (end_time r) (c :: t) :: listing rest
      end
  end.

(** A string [strip] leaves alone: nothing to remove at either end. *)
Definition tidy (s : pystr) : Prop := lstrip s = s /\ lstrip (rev s) = rev s.

(** Events other than writing the artifact and unlinking a file. *)
Definition harmless (ev : event) : Prop :=
  match ev with
  | EvWrite _ | EvUnlink _ => False
  | _ => True
  end.

(** [w'] continues [w] with harmless events only. *)
Definition extends_harmlessly (w w' : World) : Prop :=
  exists evs, log w' = log w ++ evs /\ Forall harmless evs.

(** What the worker returns for a segment on a given file system. *)
Definition worker_result (self : GeminiTranscriber) (e : Env)
    (f : gmap Path node) (segment_info : Segment)
  : option TranscriptionResult :=
  fst (transcribe_segment_async self e segment_info (mkWorld f [])).

(** The content of the transcript artifact of [audio_path], empty when
    there is none. *)
Definition artifact (w : World) (audio_path : Path) : pystr :=
  match fs w !! get_transcript_path audio_path with
  | Some (RegularFile content) => content
  | _ => []
  end.

(** A segment whose file the extractor produced and that is still there. *)
Definition planned (self : GeminiTranscriber) (audio_path : Path)
    (f : gmap Path node) (s : Segment) : Prop :=
  is_file f (seg_path s) = true
  /\ exists start, seg_path s = segment_file self audio_path start.

(** An unlink of some path other than [original]. *)
Definition unlinks_other (original : Path) (ev : event) : Prop :=
  exists q, ev = EvUnlink q /\ q <> original.







(** The attempt numbered [attempt] on [seg] ends without a usable text. *)
Definition attempt_fails (e : Env) (seg : Path) (attempt : nat) : Prop :=
  match generate_content_stream e seg attempt with
  | StreamRaises => True
  | StreamChunks chunks => strip (accumulate chunks) = []
  end.

(** The pause the wrapper takes after a failed attempt that is not the last
    one: [2 * (attempt + 1)] seconds after an exception, none after an empty
    response. *)
Definition backoff_after (e : Env) (seg : Path) (attempt : nat) : list event :=
  match generate_content_stream e seg attempt with
  | StreamRaises => [EvSleep (2 * (Z.of_nat attempt + 1))]
  | StreamChunks _ => []
  end.

(** ** Further vocabulary *)

(** The duration the prober reports for [audio_path]. *)
Definition probe_duration (e : Env) (audio_path : Path) : Q :=
  default 0%Q (ffprobe e audio_path).

(** Fuel that lets the planner finish on [audio_path]. *)
Definition needed_fuel (self : GeminiTranscriber) (e : Env)
    (audio_path : Path) : nat :=
  Z.to_nat (Qceiling (probe_duration e audio_path / max_segment_duration self)).

(** The extractor succeeds on the stride [s] of [audio_path]. *)
Definition extracted (e : Env) (audio_path : Path) (s : Segment) : bool :=
  match ffmpeg e audio_path (seg_start s)
               (binary64 (seg_end s - seg_start s)) (seg_path s) with
  | Some _ => true
  | None => false
  end.

(** The pause after the failed attempt [attempt] under any configuration. *)
Definition pause (self : GeminiTranscriber) (e : Env) (seg : Path)
    (attempt : nat) : list event :=
  match generate_content_stream e seg attempt with
  | StreamRaises =>
      if (attempt <? max_retries self - 1)%nat
      then [EvSleep (retry_delay self * (Z.of_nat attempt + 1))]
      else []
  | StreamChunks _ => []
  end.

(** The events of the failed attempts in [attempts]. *)
Definition failed_attempts (self : GeminiTranscriber) (e : Env) (seg : Path)
    (attempts : list nat) : list event :=
  flat_map (fun a => EvApiCall seg a :: pause self e seg a) attempts.

(** Seconds slept in a run. *)
Fixpoint total_sleep (evs : list event) : Z :=
  match evs with
  | [] => 0
  | EvSleep s :: rest => s + total_sleep rest
  | _ :: rest => total_sleep rest
  end.

(** Calls to the remote service in a run. *)
Fixpoint count_calls (evs : list event) : nat :=
  match evs with
  | [] => 0
  | EvApiCall _ _ :: rest => S (count_calls rest)
  | _ :: rest => count_calls rest
  end.

(** The listing entry of a result. *)
Definition entry_of (r : TranscriptionResult) : MergedSegment :=
  mkMergedSegment (start_time r) (end_time r) (text r).

(** The header lines and full-text block of an artifact. *)
Definition artifact_head (self : GeminiTranscriber) (e : Env)
    (audio_path : Path) (count : nat) (full_text : pystr) : pystr :=
  [38899; 38971; 25991; 20214]%N ++ lit ": " ++ name audio_path ++ [NL]
  ++ [36681; 37636; 26178; 38291]%N ++ lit ": " ++ strftime e ++ [NL]
  ++ [20351; 29992; 27169; 22411]%N ++ lit ": " ++ model_name self ++ [NL]
  ++ [34389; 29702; 21312; 22602; 25976]%N ++ lit ": "
  ++ fmt_d (Z.of_nat count) ++ [NL; NL]
  ++ [23436; 25972; 25991; 26412]%N ++ lit ":" ++ [NL]
  ++ full_text ++ [NL; NL].

(** [cleanup_segments] can remove [q]: it is listed, is not the original,
    is a regular file and its unlink succeeds. *)
Definition removable (e : Env) (segments : list Segment) (original : Path)
    (f : gmap Path node) (q : Path) : Prop :=
  q ∈ List.map seg_path segments /\ q <> original
  /\ is_file f q = true /\ unlink_ok e q = true.

(** The float sums of the planner are exact for the threshold [t] and the
    duration [d]: [t] is a whole number of seconds and [d + t] does not go
    beyond [2^53], so every stride boundary [j * t] is an integer a float
    holds exactly. *)
Definition exact_sums (t d : Q) : Prop :=
  (exists k : Z, (t == inject_Z k)%Q) /\ (d + t <= inject_Z (2 ^ 53))%Q.

(** ffmpeg succeeds on every stride of the plan of a file of length [d]:
    on the cut from [start = j * t] of the length the planner asks for, to
    the file the extractor names for [start]. *)
Definition extraction_succeeds (self : GeminiTranscriber) (e : Env)
    (audio_path : Path) (d : Q) : Prop :=
  forall (j : nat) (start : Q),
    (start == inject_Z (Z.of_nat j) * max_segment_duration self)%Q ->
    (start < d)%Q ->
    is_Some (ffmpeg e audio_path start
               (binary64 (Qmin (start + max_segment_duration self) d - start))
               (segment_file self audio_path start)).



(** Every pause the wrapper can ask for is one [time.sleep] accepts: the
    base delay is not negative and the longest pause,
    [retry_delay * (max_retries - 1)], stays within the range of the
    clock. *)
Definition sleeps_accepted (self : GeminiTranscriber) : Prop :=
  0 <= retry_delay self
  /\ retry_delay self * (Z.of_nat (max_retries self) - 1) <= 9223372036.

(** ** Sample worlds

    Concrete libraries, services and recordings on which the statements
    below are exercised. *)

Definition sample_root : list pystr := [lit "downloads"].

Definition sample_transcriber : GeminiTranscriber :=
  default_transcriber sample_root.

Definition sample_audio : Path := mkPath sample_root (lit "lecture.mp3").

Definition sample_world : World :=
  mkWorld {[ sample_audio := RegularFile [73; 68; 51]%N ]} [].

(** A service that answers every segment at once with [reply]. *)
Definition answering (reply : pystr) (_ : Path) (_ : nat) : stream_outcome :=
  StreamChunks [Some reply].

(** A 45-minute recording in a healthy environment. *)
Definition sample_env : Env :=
  {| ffprobe := fun _ => Some (inject_Z 2700);
     ffmpeg := fun _ _ _ _ => Some [1%N];
     ffmpeg_leftover := fun _ _ _ _ => None;
     generate_content_stream := answering (lit "hello");
     write_text := fun _ => WriteOk;
     unlink_ok := fun _ => true;
     completion_order := fun l => l;
     strftime := lit "2025-01-01 00:00:00";
     time_time := 0 |}.


(** A service that only ever streams blanks. *)
Definition blank_env : Env :=
  {| ffprobe := ffprobe sample_env;
     ffmpeg := ffmpeg sample_env;
     ffmpeg_leftover := ffmpeg_leftover sample_env;
     generate_content_stream :=
       fun _ _ => StreamChunks [Some (lit "  "); None; Some [NL]];
     write_text := write_text sample_env;
     unlink_ok := unlink_ok sample_env;
     completion_order := completion_order sample_env;
     strftime := strftime sample_env;
     time_time := time_time sample_env |}.

(** A service that is down. *)
Definition down_env : Env :=
  {| ffprobe := ffprobe sample_env;
     ffmpeg := ffmpeg sample_env;
     ffmpeg_leftover := ffmpeg_leftover sample_env;
     generate_content_stream := fun _ _ => StreamRaises;
     write_text := write_text sample_env;
     unlink_ok := unlink_ok sample_env;
     completion_order := completion_order sample_env;
     strftime := strftime sample_env;
     time_time := time_time sample_env |}.



(** The results of a 45-minute recording. *)
Definition first_half : TranscriptionResult :=
  mkResult (lit "one") 0 (inject_Z 1800)
           (mkPath sample_root (lit "001.mp3")) 0.

Definition second_half : TranscriptionResult :=
  mkResult (lit "two") (inject_Z 1800) (inject_Z 2700)
           (mkPath sample_root (lit "002.mp3")) 0.

(** A 90-minute recording whose second segment the service never manages
    to transcribe; the other segments are answered with their file name. *)
Definition second_fails_env : Env :=
  {| ffprobe := fun _ => Some (inject_Z 5400);
     ffmpeg := ffmpeg sample_env;
     ffmpeg_leftover := ffmpeg_leftover sample_env;
     generate_content_stream :=
       fun seg _ =>
         if bool_decide (name seg = lit "002.mp3") then StreamRaises
         else StreamChunks [Some (lit "part "); Some (name seg)];
     write_text := write_text sample_env;
     unlink_ok := unlink_ok sample_env;
     completion_order := completion_order sample_env;
     strftime := strftime sample_env;
     time_time := time_time sample_env |}.

Definition segment_1 : Segment :=
  mkSegment (mkPath sample_root (lit "001.mp3")) 0 (inject_Z 1800).
Definition segment_2 : Segment :=
  mkSegment (mkPath sample_root (lit "002.mp3")) (inject_Z 1800) (inject_Z 3600).
Definition segment_3 : Segment :=
  mkSegment (mkPath sample_root (lit "003.mp3")) (inject_Z 3600) (inject_Z 5400).

(** The library once the three segments have been extracted. *)
Definition extracted_world : World :=
  mkWorld (<[seg_path segment_3 := RegularFile [1%N]]>
             (<[seg_path segment_2 := RegularFile [1%N]]>
                (<[seg_path segment_1 := RegularFile [1%N]]> (fs sample_world))))
          [].

Definition result_1 : TranscriptionResult :=
  mkResult (lit "part 001.mp3") 0 (inject_Z 1800) (seg_path segment_1) 0.
Definition result_3 : TranscriptionResult :=
  mkResult (lit "part 003.mp3") (inject_Z 3600) (inject_Z 5400)
           (seg_path segment_3) 0.

(** An environment in which temporary files cannot be removed. *)
Definition sticky_env : Env :=
  {| ffprobe := ffprobe sample_env;
     ffmpeg := ffmpeg sample_env;
     ffmpeg_leftover := ffmpeg_leftover sample_env;
     generate_content_stream := generate_content_stream sample_env;
     write_text := write_text sample_env;
     unlink_ok := fun _ => false;
     completion_order := completion_order sample_env;
     strftime := strftime sample_env;
     time_time := time_time sample_env |}.

(** An environment in which the artifact can be opened but not written. *)
Definition disk_full_env : Env :=
  {| ffprobe := ffprobe sample_env;
     ffmpeg := ffmpeg sample_env;
     ffmpeg_leftover := ffmpeg_leftover sample_env;
     generate_content_stream := generate_content_stream sample_env;
     write_text := fun _ => WriteFails;
     unlink_ok := unlink_ok sample_env;
     completion_order := completion_order sample_env;
     strftime := strftime sample_env;
     time_time := time_time sample_env |}.

(** The plan of the 45-minute sample and the library after extraction. *)
Definition sample_segments : list Segment :=
  [mkSegment (mkPath sample_root (lit "001.mp3")) 0 (inject_Z 1800);
   mkSegment (mkPath sample_root (lit "002.mp3")) (inject_Z 1800)
             (inject_Z 2700)].


(** A second recording with the stem of the first and another extension. *)
Definition sample_sibling : Path := mkPath sample_root (lit "lecture.wav").

(** A ten-minute recording in a healthy environment. *)
Definition short_env : Env :=
  {| ffprobe := fun _ => Some (inject_Z 600);
     ffmpeg := ffmpeg sample_env;
     ffmpeg_leftover := ffmpeg_leftover sample_env;
     generate_content_stream := generate_content_stream sample_env;
     write_text := write_text sample_env;
     unlink_ok := unlink_ok sample_env;
     completion_order := completion_order sample_env;
     strftime := strftime sample_env;
     time_time := time_time sample_env |}.

(** A service that raises once and then answers. *)
Definition flaky_env : Env :=
  {| ffprobe := ffprobe sample_env;
     ffmpeg := ffmpeg sample_env;
     ffmpeg_leftover := ffmpeg_leftover sample_env;
     generate_content_stream :=
       fun _ attempt =>
         match attempt with
         | O => StreamRaises
         | _ => StreamChunks [Some (lit " hello "); None]
         end;
     write_text := write_text sample_env;
     unlink_ok := unlink_ok sample_env;
     completion_order := completion_order sample_env;
     strftime := strftime sample_env;
     time_time := time_time sample_env |}.

(** An extractor that fails on the first stride only. *)
Definition first_stride_fails_env : Env :=
  {| ffprobe := ffprobe sample_env;
     ffmpeg := fun _ start _ _ =>
                 if Qeq_bool start 0 then None else Some [1%N];
     ffmpeg_leftover := fun _ _ _ _ => Some [];
     generate_content_stream := generate_content_stream sample_env;
     write_text := write_text sample_env;
     unlink_ok := unlink_ok sample_env;
     completion_order := completion_order sample_env;
     strftime := strftime sample_env;
     time_time := time_time sample_env |}.

(** A library in which the sample already has its artifact. *)
Definition transcribed_world : World :=
  mkWorld (<[get_transcript_path sample_audio := RegularFile [120%N]]>
             (fs sample_world)) [].

(** A transcriber whose threshold is the float nearest to 0.1 s. *)
Definition tenth_transcriber : GeminiTranscriber :=
  {| audio_dir := sample_root;
     audio_extensions := audio_extensions sample_transcriber;
     model_name := model_name sample_transcriber;
     max_segment_duration := 3602879701896397 # 36028797018963968;
     max_workers := max_workers sample_transcriber;
     max_retries := max_retries sample_transcriber;
     retry_delay := retry_delay sample_transcriber |}.

(** A recording of one second in a healthy environment. *)
Definition one_second_env : Env :=
  {| ffprobe := fun _ => Some 1%Q;
     ffmpeg := ffmpeg sample_env;
     ffmpeg_leftover := ffmpeg_leftover sample_env;
     generate_content_stream := generate_content_stream sample_env;
     write_text := write_text sample_env;
     unlink_ok := unlink_ok sample_env;
     completion_order := completion_order sample_env;
     strftime := strftime sample_env;
     time_time := time_time sample_env |}.

(** * String facts *)

Lemma occurs_in_starts_with (needle rest : pystr) :
  starts_with needle (needle ++ rest) = true.
Proof.
  induction needle as [|c n IH]; simpl; [reflexivity|].
  now rewrite N.eqb_refl, IH.
Qed.

Lemma occurs_inb_here (needle hay : pystr) :
  starts_with needle hay = true -> occurs_inb needle hay = true.
Proof. intros H. destruct hay; simpl; now rewrite H. Qed.

Lemma occurs_inb_complete (needle hay : pystr) :
  occurs_in needle hay -> occurs_inb needle hay = true.
Proof.
  intros (pre & post & ->). induction pre as [|c pre IH].
  - cbn [app]. apply occurs_inb_here, occurs_in_starts_with.
  - simpl. rewrite IH. apply orb_true_r.
Qed.

Lemma strip_of_tidy (s : pystr) : tidy s -> strip s = s.
Proof.
  intros [Hl Hr]. unfold strip, rstrip. now rewrite Hl, Hr, rev_involutive.
Qed.

Lemma lstrip_head (s : pystr) (c : N) (r : pystr) :
  lstrip s = c :: r -> isspace c = false.
Proof.
  induction s as [|x s IH]; simpl; [discriminate|].
  destruct (isspace x) eqn:E; [exact IH|]. intros [= <- _]. exact E.
Qed.

Lemma lstrip_fixed_head (c : N) (r : pystr) :
  isspace c = false -> lstrip (c :: r) = c :: r.
Proof. intros H. simpl. now rewrite H. Qed.

Lemma lstrip_fixed_app (s s' : pystr) :
  s <> [] -> lstrip s = s -> lstrip (s ++ s') = s ++ s'.
Proof.
  destruct s as [|c r]; [congruence|]. intros _ H.
  apply lstrip_head in H. simpl. now rewrite H.
Qed.

Lemma lstrip_snoc (s : pystr) (c : N) :
  isspace c = false ->
  exists s', lstrip (s ++ [c]) = s' ++ [c] /\ lstrip s' = s'.
Proof.
  intros Hc. induction s as [|x s IH]; simpl.
  - exists []. now rewrite Hc.
  - destruct (isspace x) eqn:E; [exact IH|].
    exists (x :: s). split; [reflexivity|]. simpl. now rewrite E.
Qed.

Lemma strip_tidy (s : pystr) : tidy (strip s).
Proof.
  unfold strip, rstrip. destruct (lstrip s) as [|c r] eqn:E.
  - split; reflexivity.
  - pose proof (lstrip_head _ _ _ E) as Hc. simpl rev.
    destruct (lstrip_snoc (rev r) c Hc) as (s' & -> & Hs').
    rewrite rev_app_distr. cbn [rev app]. split.
    + now apply lstrip_fixed_head.
    + cbn [rev]. rewrite rev_involutive.
      destruct s' as [|y s'']; [now apply lstrip_fixed_head|].
      apply lstrip_head in Hs'. cbn [app]. now apply lstrip_fixed_head.
Qed.

Lemma strip_idempotent (s : pystr) : strip (strip s) = strip s.
Proof. apply strip_of_tidy, strip_tidy. Qed.

Lemma tidy_app (a b : pystr) :
  a <> [] -> b <> [] -> lstrip a = a -> lstrip (rev b) = rev b ->
  tidy (a ++ b).
Proof.
  intros Ha Hb Hl Hr. split.
  - now apply lstrip_fixed_app.
  - rewrite rev_app_distr. apply lstrip_fixed_app; [|exact Hr].
    intros E. apply Hb. rewrite <- (rev_involutive b), E. reflexivity.
Qed.

(** ** Digits and padded numbers *)

Lemma uint_chars_digits (u : Decimal.uint) :
  Forall (fun c => (48 <= c <= 57)%N) (uint_chars u).
Proof.
  induction u; simpl; constructor; try assumption; unfold digit_char; lia.
Qed.

Lemma uint_chars_nonempty (u : Decimal.uint) :
  u <> Decimal.Nil -> uint_chars u <> [].
Proof. destruct u; simpl; congruence. Qed.

Lemma digits_nonempty (n : N) : digits n <> [].
Proof.
  unfold digits. apply uint_chars_nonempty. destruct n as [|p]; simpl.
  - discriminate.
  - apply Unsigned.to_uint_nonnil.
Qed.

Lemma digits_are_digits (n : N) : Forall (fun c => (48 <= c <= 57)%N) (digits n).
Proof. apply uint_chars_digits. Qed.

(** A padded number is not empty and consists of digits and at most a
    leading minus sign. *)
Lemma fmt_0d_chars (w : nat) (z : Z) :
  fmt_0d w z <> []
  /\ Forall (fun c => c = MINUS \/ (48 <= c <= 57)%N) (fmt_0d w z).
Proof.
  unfold fmt_0d.
  assert (Forall (fun c => c = MINUS \/ (48 <= c <= 57)%N)
                 (digits (Z.abs_N z))) as Hd.
  { eapply Forall_impl; [apply digits_are_digits|]. intros c Hc. now right. }
  assert (forall k, Forall (fun c => c = MINUS \/ (48 <= c <= 57)%N)
                           (repeat (digit_char 0) k)) as Hz.
  { intros k. induction k; simpl; constructor; [|assumption].
    right. unfold digit_char. lia. }
  destruct (z <? 0).
  - split; [discriminate|]. constructor; [now left|].
    apply Forall_app. split; [apply Hz|exact Hd].
  - split.
    + intros E. apply app_eq_nil in E as [_ E].
      now apply digits_nonempty in E.
    + apply Forall_app. split; [apply Hz|exact Hd].
Qed.

Lemma fmt_0d_no_dot (w : nat) (z : Z) : DOT ∉ fmt_0d w z.
Proof.
  intros Hin. destruct (fmt_0d_chars w z) as [_ Hc].
  rewrite Forall_forall in Hc. apply Hc in Hin.
  unfold DOT, MINUS in Hin. destruct Hin as [Hin|Hin]; [discriminate|lia].
Qed.

Lemma fmt_0d_not_hidden (w : nat) (z : Z) (rest : pystr) :
  startswith_dot (fmt_0d w z ++ rest) = false.
Proof.
  destruct (fmt_0d_chars w z) as [Hne Hc].
  destruct (fmt_0d w z) as [|c r]; [congruence|].
  apply Forall_cons in Hc as [Hc _]. simpl.
  apply N.eqb_neq. unfold DOT, MINUS in *. destruct Hc as [->|Hc]; lia.
Qed.

(** ** Suffixes *)

Lemma rfind_absent (c : N) (s : pystr) : c ∉ s -> rfind c s = None.
Proof.
  induction s as [|x s IH]; intros Hn; simpl; [reflexivity|].
  rewrite IH by (intros H; apply Hn; now right).
  destruct (N.eqb_spec x c) as [->|]; [|reflexivity].
  exfalso. apply Hn. now left.
Qed.

Lemma rfind_last (c : N) (pre post : pystr) :
  c ∉ post -> rfind c (pre ++ c :: post) = Some (length pre).
Proof.
  intros Hn. induction pre as [|x pre IH]; simpl.
  - now rewrite (rfind_absent c post Hn), N.eqb_refl.
  - now rewrite IH.
Qed.

Lemma rfind_found (c : N) (s : pystr) (i : nat) :
  rfind c s = Some i ->
  exists post, drop i s = c :: post /\ (c ∉ post) /\ (i < length s)%nat.
Proof.
  revert i. induction s as [|x s IH]; intros i; simpl; [discriminate|].
  destruct (rfind c s) as [j|] eqn:E.
  - intros [= <-]. destruct (IH j eq_refl) as (post & Hd & Hn & Hl).
    exists post. simpl. repeat split; [exact Hd|exact Hn|lia].
  - destruct (N.eqb_spec x c) as [->|]; [|discriminate].
    intros [= <-]. exists s. simpl. repeat split; [|lia].
    intros Hin. clear IH. induction s as [|y s IHs]; [inversion Hin|].
    simpl in E. destruct (rfind c s) eqn:E'; [discriminate|].
    destruct (N.eqb_spec y c) as [->|Hne]; [discriminate|].
    apply list_elem_of_In in Hin. destruct Hin as [->|Hin]; [congruence|].
    apply IHs; [reflexivity|]. now apply list_elem_of_In.
Qed.

(** A suffix is empty, or a dot followed by at least one character none of
    which is a dot; the name is its stem followed by the suffix. *)
Lemma suffix_of_shape (nm : pystr) :
  (suffix_of nm = []
   \/ exists r, suffix_of nm = DOT :: r /\ r <> [] /\ DOT ∉ r)
  /\ take (length nm - length (suffix_of nm)) nm ++ suffix_of nm = nm.
Proof.
  unfold suffix_of. destruct (rfind DOT nm) as [i|] eqn:E.
  - destruct ((0 <? i)%nat && (i <? length nm - 1)%nat) eqn:B.
    + apply andb_true_iff in B as [B1 B2].
      apply Nat.ltb_lt in B1, B2.
      destruct (rfind_found _ _ _ E) as (post & Hd & Hn & Hl).
      split.
      * right. exists post. split; [exact Hd|]. split; [|exact Hn].
        intros ->. apply (f_equal length) in Hd.
        rewrite length_drop in Hd. simpl in Hd. lia.
      * rewrite length_drop.
        replace (length nm - (length nm - i))%nat with i by lia.
        apply take_drop.
    + split; [now left|].
      rewrite app_nil_r. simpl. rewrite Nat.sub_0_r. apply firstn_all.
  - split; [now left|].
    rewrite app_nil_r. simpl. rewrite Nat.sub_0_r. apply firstn_all.
Qed.

(** The suffix of a dot-free, non-empty stem followed by a suffix is that
    suffix. *)
Lemma suffix_of_app (stem_part sfx : pystr) :
  stem_part <> [] -> DOT ∉ stem_part ->
  (sfx = [] \/ exists r, sfx = DOT :: r /\ r <> [] /\ DOT ∉ r) ->
  suffix_of (stem_part ++ sfx) = sfx.
Proof.
  intros Hne Hnd [->|(r & -> & Hr & Hn)]; unfold suffix_of.
  - rewrite app_nil_r. now rewrite rfind_absent.
  - rewrite rfind_last by exact Hn.
    assert (0 < length stem_part)%nat as H0.
    { destruct stem_part; [congruence|simpl; lia]. }
    assert (0 < length r)%nat as H1.
    { destruct r; [congruence|simpl; lia]. }
    rewrite length_app. cbn [length].
    assert ((0 <? length stem_part)%nat = true) as -> by now apply Nat.ltb_lt.
    assert ((length stem_part <? length stem_part + S (length r) - 1)%nat = true)
      as -> by (apply Nat.ltb_lt; lia).
    cbn [andb]. now rewrite drop_app_length.
Qed.

(** ** Binary64 sums *)

Lemma Qred_inject_Z (z : Z) : Qred (inject_Z z) = inject_Z z.
Proof. apply Qcanon.Qred_iff. cbn [inject_Z Qnum Qden]. apply Z.gcd_1_r. Qed.

Lemma fits_mantissa_shifted (a s : Z) :
  0 <= a < 2 ^ 53 -> 52 <= s -> fits_mantissa (a * 2 ^ s) = true.
Proof.
  intros Ha Hs. unfold fits_mantissa. apply orb_true_iff.
  destruct (Z.eq_dec a 0) as [->|Hne]; [left; reflexivity|right].
  apply Z.eqb_eq.
  assert (Z.log2 a < 53) as Hl by (apply Z.log2_lt_pow2; lia).
  pose proof (Z.log2_nonneg a) as Hl0.
  rewrite Z.log2_mul_pow2 by lia.
  replace (2 ^ s) with (2 ^ (52 - Z.log2 a) * 2 ^ (s + Z.log2 a - 52))
    by (rewrite <- Z.pow_add_r by lia; f_equal; lia).
  rewrite Z.mul_assoc. apply Z.mod_mul.
  apply Z.pow_nonzero; lia.
Qed.

(** An integer below [2^53] is a float. *)
Lemma representable_int (q : Q) (z : Z) :
  (q == inject_Z z)%Q -> Z.abs z < 2 ^ 53 -> representable q = true.
Proof.
  intros Hq Hz. unfold representable.
  assert (Qred (q * inject_Z (2 ^ 1074)) = inject_Z (z * 2 ^ 1074)) as ->.
  { rewrite <- (Qred_inject_Z (z * 2 ^ 1074)). apply Qred_complete.
    now rewrite Hq, inject_Z_mult. }
  cbn [inject_Z Qnum Qden]. apply andb_true_iff. split; [reflexivity|].
  rewrite Z.abs_mul, (Z.abs_eq (2 ^ 1074)) by (apply Z.pow_nonneg; lia).
  apply fits_mantissa_shifted; lia.
Qed.

Lemma binary64_int (q : Q) (z : Z) :
  (q == inject_Z z)%Q -> Z.abs z < 2 ^ 53 -> binary64 q = q.
Proof.
  intros Hq Hz. unfold binary64. now rewrite (representable_int q z).
Qed.

(** Where the sums are exact the loop with the rounded sum is the loop
    with the exact sum. *)
Lemma split_loop_binary64_exact (self : GeminiTranscriber) (e : Env)
    (audio_path : Path) (d : Q) (fuel : nat) :
  (0 < max_segment_duration self)%Q ->
  exact_sums (max_segment_duration self) d ->
  forall current segments w,
    (d <= current)%Q \/ (exists j : Z, 0 <= j /\ (current == inject_Z j)%Q) ->
    split_loop_binary64 fuel self e audio_path d current segments w
    = split_loop fuel self e audio_path d current segments w.
Proof.
  intros Ht [[k Hk] Hd].
  assert (0 < k) as Hk0.
  { rewrite Zlt_Qlt. change (inject_Z 0) with 0%Q. now rewrite <- Hk. }
  induction fuel as [|fuel IH]; intros current segments w Hinv;
    cbn [split_loop_binary64 split_loop]; [reflexivity|].
  destruct (Qle_bool d current) eqn:E; [reflexivity|].
  assert (current < d)%Q as Hlt.
  { destruct (Qlt_le_dec current d) as [|Hle]; [assumption|].
    apply Qle_bool_iff in Hle. congruence. }
  destruct Hinv as [Hge|(j & Hj0 & Hj)]; [lra|].
  assert (Hsum : (current + max_segment_duration self == inject_Z (j + k))%Q)
    by now rewrite Hj, Hk, inject_Z_plus.
  rewrite (binary64_int _ (j + k) Hsum).
  - destruct (_create_segment_file _ _ _ _ _ _) as [sp w1]. apply IH.
    destruct (Q.min_spec (current + max_segment_duration self) d)
      as [[_ Hm]|[_ Hm]].
    + right. exists (j + k). split; [lia|]. now rewrite Hm.
    + left. rewrite Hm. apply Qle_refl.
  - rewrite Z.abs_eq by lia. rewrite Zlt_Qlt, <- Hsum. lra.
Qed.

Lemma split_audio_file_binary64_exact (self : GeminiTranscriber) (e : Env)
    (audio_path : Path) (w : World) (fuel : nat) :
  (0 < max_segment_duration self)%Q ->
  exact_sums (max_segment_duration self)
             (fst (get_audio_duration e audio_path w)) ->
  split_audio_file_binary64 fuel self e audio_path w
  = split_audio_file fuel self e audio_path w.
Proof.
  intros Ht Hx. unfold split_audio_file_binary64, split_audio_file.
  destruct (get_audio_duration e audio_path w) as [d w1]. cbn [fst] in Hx.
  destruct (Qle_bool d (max_segment_duration self)); [reflexivity|].
  apply split_loop_binary64_exact; [assumption..|].
  right. exists 0. split; [lia|reflexivity].
Qed.

(** * Properties *)

(** ** Segment planner *)

Lemma Qle_bool_false_lt (a b : Q) : Qle_bool a b = false -> (b < a)%Q.
Proof.
  intros E. destruct (Qlt_le_dec b a) as [|Hle]; [assumption|].
  apply Qle_bool_iff in Hle. congruence.
Qed.

Section Planner.
Variable self : GeminiTranscriber.
Variable e : Env.
Variable audio_path : Path.
Variable duration : Q.
Let t := max_segment_duration self.
Hypothesis t_pos : (0 < t)%Q.

Lemma threshold_nonzero : Qeq_bool (max_segment_duration self) 0 = false.
Proof.
  destruct (Qeq_bool (max_segment_duration self) 0) eqn:E; [|reflexivity].
  apply Qeq_bool_eq in E. subst t. lra.
Qed.


(** The loop ends within any fuel that covers the distance left. *)
Lemma split_loop_terminates (fuel : nat) :
  forall current segments w,
    (duration - current <= inject_Z (Z.of_nat fuel) * t)%Q ->
    exists r, split_loop fuel self e audio_path duration current segments w
              = Some r.
Proof.
  induction fuel as [|fuel IH]; intros current segments w Hd.
  - simpl. destruct (Qle_bool duration current) eqn:E; [eauto|].
    exfalso. assert (~ (duration <= current)%Q) as Hn.
    { intros Hle. apply Qle_bool_iff in Hle. congruence. }
    apply Hn. change (inject_Z (Z.of_nat 0)) with 0%Q in Hd. lra.
  - cbn [split_loop]. destruct (Qle_bool duration current) eqn:E; [eauto|].
    destruct (_create_segment_file _ _ _ _ _ _) as [sp w1].
    apply IH.
    rewrite Nat2Z.inj_succ in Hd. unfold Z.succ in Hd.
    rewrite inject_Z_plus in Hd. change (inject_Z 1) with 1%Q in Hd.
    fold t.
    assert (0 <= inject_Z (Z.of_nat fuel))%Q as Hf.
    { change 0%Q with (inject_Z 0). rewrite <- Zle_Qle. lia. }
    destruct (Q.min_spec (current + t) duration) as [[_ Hm]|[_ Hm]];
      rewrite Hm; nra.
Qed.


End Planner.

Lemma Qceiling_unique (x : Q) (n : Z) :
  (inject_Z (n - 1) < x)%Q -> (x <= inject_Z n)%Q -> Qceiling x = n.
Proof.
  intros Hlo Hhi.
  pose proof (Qle_ceiling x) as Hc. pose proof (Qceiling_lt x) as Hl.
  assert (n - 1 < Qceiling x) by (rewrite Zlt_Qlt; lra).
  assert (Qceiling x - 1 < n) by (rewrite Zlt_Qlt; lra).
  lia.
Qed.

Lemma Qfloor_unique (x : Q) (n : Z) :
  (inject_Z n <= x)%Q -> (x < inject_Z (n + 1))%Q -> Qfloor x = n.
Proof.
  intros Hlo Hhi.
  pose proof (Qfloor_le x) as Hc. pose proof (Qlt_floor x) as Hl.
  assert (n < Qfloor x + 1) by (rewrite Zlt_Qlt; lra).
  assert (Qfloor x < n + 1) by (rewrite Zlt_Qlt; lra).
  lia.
Qed.

Lemma Qfloor_multiple (k : Z) (t : Q) :
  (0 < t)%Q -> Qfloor (inject_Z k * t / t) = k.
Proof.
  intros Ht. rewrite <- (Qfloor_Z k) at 2. apply Qfloor_comp.
  field. lra.
Qed.

Section Strides.
Variable self : GeminiTranscriber.
Variable audio_path : Path.
Variable duration : Q.
Let t := max_segment_duration self.
Hypothesis t_pos : (0 < t)%Q.

Lemma strides_head (current : Q) (l : list Segment) :
  strides self audio_path duration current l ->
  forall s, head l = Some s -> seg_start s = current.
Proof.
  intros H s E. destruct H; simpl in E; [discriminate|].
  injection E as <-. reflexivity.
Qed.

Lemma strides_contiguous (current : Q) (l : list Segment) :
  strides self audio_path duration current l -> contiguous l.
Proof.
  induction 1 as [|current rest Hlt Hrest IH]; simpl; [exact I|].
  destruct rest as [|b rest']; [exact I|]. split; [|exact IH].
  symmetry. eapply strides_head; [exact Hrest|reflexivity].
Qed.

Lemma strides_last (current : Q) (l : list Segment) :
  strides self audio_path duration current l ->
  forall s, last l = Some s -> (seg_end s == duration)%Q.
Proof.
  induction 1 as [|current rest Hlt Hrest IH]; intros s Hs; [discriminate|].
  destruct rest as [|b rest'].
  - injection Hs as <-. simpl. inversion Hrest as [c Hle|]; subst.
    pose proof (Q.le_min_r (current + max_segment_duration self) duration).
    lra.
  - apply IH. exact Hs.
Qed.

Lemma strides_length (current : Q) (l : list Segment) :
  strides self audio_path duration current l ->
  forall k : Z,
    (current == inject_Z k * t)%Q -> (current < duration)%Q ->
    Z.of_nat (length l) = Qceiling (duration / t) - k.
Proof.
  induction 1 as [|current rest Hlt Hrest IH]; intros k Hk Hcur; [lra|].
  fold t in Hrest, IH.
  destruct (Qlt_le_dec (Qmin (current + t) duration) duration) as [Hm|Hm].
  - assert (Qmin (current + t) duration == current + t)%Q as Heq.
    { destruct (Q.min_spec (current + t) duration) as [[_ E]|[_ E]]; lra. }
    cbn [length]. rewrite Nat2Z.inj_succ, (IH (k + 1)); [lia| |exact Hm].
    rewrite Heq, Hk, inject_Z_plus. change (inject_Z 1) with 1%Q. ring.
  - inversion Hrest as [c Hle|]; subst; [|lra].
    cbn [length]. symmetry.
    assert (duration <= current + t)%Q as Hle'.
    { destruct (Q.min_spec (current + t) duration) as [[? E]|[? E]]; lra. }
    rewrite (Qceiling_unique (duration / t) (k + 1)); [lia| |].
    + replace (k + 1 - 1) with k by lia.
      apply Qlt_shift_div_l; [exact t_pos|]. lra.
    + apply Qle_shift_div_r; [exact t_pos|].
      rewrite inject_Z_plus. change (inject_Z 1) with 1%Q. lra.
Qed.

(** The [j]-th stride after the one starting at [k * t] starts at
    [(k + j) * t], spans at most [t] and is extracted to the file numbered
    [k + j + 1]. *)
Lemma strides_lookup (current : Q) (l : list Segment) :
  strides self audio_path duration current l ->
  forall (k : Z) (j : nat) (s : Segment),
    (current == inject_Z k * t)%Q ->
    l !! j = Some s ->
    (seg_start s == inject_Z (k + Z.of_nat j) * t)%Q
    /\ (seg_end s - seg_start s <= t)%Q
    /\ seg_path s
       = mkPath (parent audio_path)
                (fmt_0d 3 (k + Z.of_nat j + 1) ++ suffix audio_path).
Proof.
  induction 1 as [|current rest Hlt Hrest IH]; intros k j s Hk Hj;
    [discriminate|].
  fold t in Hrest, IH. destruct j as [|j].
  - injection Hj as <-. cbn [seg_start seg_end seg_path].
    replace (k + Z.of_nat 0) with k by lia. split; [exact Hk|].
    split.
    + pose proof (Q.le_min_l (current + t) duration). fold t. lra.
    + unfold segment_file, segment_index. fold t.
      rewrite (Qfloor_comp _ (inject_Z k * t / t)).
      * now rewrite Qfloor_multiple.
      * now rewrite Hk.
  - cbn [lookup list_lookup] in Hj.
    inversion Hrest as [c Hle E1 E2|c rest' Hlt' Hrest' E1 E2];
      subst; [discriminate|].
    assert (Qmin (current + t) duration == current + t)%Q as Heq.
    { fold t in Hlt'.
      destruct (Q.min_spec (current + t) duration) as [[_ E]|[_ E]]; lra. }
    destruct (IH (k + 1) j s) as (Hs & Hlen & Hp); [|exact Hj|].
    + rewrite Heq, Hk, inject_Z_plus. change (inject_Z 1) with 1%Q. ring.
    + replace (k + Z.of_nat (S j)) with (k + 1 + Z.of_nat j) by lia.
      auto.
Qed.
End Strides.

Lemma strides_members (self : GeminiTranscriber) (audio_path : Path)
    (duration current : Q) (l : list Segment) :
  strides self audio_path duration current l ->
  Forall (fun s => seg_path s = segment_file self audio_path (seg_start s)
                   /\ seg_end s
                      = Qmin (seg_start s + max_segment_duration self) duration
                   /\ (seg_start s < duration)%Q) l.
Proof.
  induction 1 as [|current rest Hlt Hrest IH]; constructor; [|exact IH].
  split; [reflexivity|]. split; [reflexivity|exact Hlt].
Qed.

Lemma list_filter_sublist {A} (keep : A -> bool) (l : list A) :
  List.filter keep l `sublist_of` l.
Proof.
  induction l as [|x l IH]; simpl; [constructor|].
  destruct (keep x); [now apply sublist_skip|now apply sublist_cons].
Qed.

Lemma list_filter_all {A} (keep : A -> bool) (l : list A) :
  Forall (fun x => keep x = true) l -> List.filter keep l = l.
Proof.
  induction 1 as [|x l Hx _ IH]; simpl; [reflexivity|].
  now rewrite Hx, IH.
Qed.

(** Whatever the extractor does, the loop returns the strides whose
    extraction succeeded, in the order of the plan. *)
Lemma split_loop_filter (self : GeminiTranscriber) (e : Env)
    (audio_path : Path) (duration : Q) (fuel : nat) :
  Qeq_bool (max_segment_duration self) 0 = false ->
  forall current segments w segs w',
    split_loop fuel self e audio_path duration current segments w
    = Some (segs, w') ->
    exists full,
      strides self audio_path duration current full
      /\ segs = segments ++ List.filter (extracted e audio_path) full.
Proof.
  intros Ht. induction fuel as [|fuel IH];
    intros current segments w segs w' Hrun.
  - simpl in Hrun. destruct (Qle_bool duration current) eqn:E; [|discriminate].
    injection Hrun as <- <-. exists []. rewrite app_nil_r.
    split; [|reflexivity]. constructor. now apply Qle_bool_iff.
  - cbn [split_loop] in Hrun. destruct (Qle_bool duration current) eqn:E.
    + injection Hrun as <- <-. exists []. rewrite app_nil_r.
      split; [|reflexivity]. constructor. now apply Qle_bool_iff.
    + pose proof (Qle_bool_false_lt _ _ E) as Hlt.
      unfold _create_segment_file in Hrun. rewrite Ht in Hrun.
      cbv zeta in Hrun.
      set (end_time := Qmin (current + max_segment_duration self) duration)
        in *.
      set (dst := segment_file self audio_path current) in *.
      set (len := binary64 (end_time - current)) in *.
      assert (Hx : extracted e audio_path (mkSegment dst current end_time)
                   = match ffmpeg e audio_path current len dst with
                     | Some _ => true
                     | None => false
                     end) by reflexivity.
      destruct (ffmpeg e audio_path current len dst) as [bytes|];
        [|destruct (ffmpeg_leftover e audio_path current len dst)];
        apply IH in Hrun as (full & Hs & ->);
        exists (mkSegment dst current end_time :: full);
        (split; [now constructor|]);
        cbn [List.filter]; rewrite Hx;
        [now rewrite <- app_assoc|reflexivity..].
Qed.

(** With a working extractor the loop from offset 0 returns exactly the
    strides. *)
Lemma split_loop_strides (self : GeminiTranscriber) (e : Env)
    (audio_path : Path) (duration : Q) (fuel : nat) :
  (0 < max_segment_duration self)%Q ->
  extraction_succeeds self e audio_path duration ->
  forall w segs w',
    split_loop fuel self e audio_path duration 0 [] w = Some (segs, w') ->
    strides self audio_path duration 0 segs.
Proof.
  intros Ht Hok w segs w' Hrun.
  destruct (split_loop_filter self e audio_path duration fuel
              (threshold_nonzero self Ht) 0 [] w segs w' Hrun)
    as (full & Hs & ->).
  cbn [app]. rewrite list_filter_all; [exact Hs|].
  pose proof (strides_members _ _ _ _ _ Hs) as Hm.
  rewrite Forall_forall in Hm |- *. intros s Hin.
  destruct (Hm s Hin) as (Hp & He & Hlt).
  apply list_elem_of_lookup_1 in Hin as [j Hj].
  assert (0 == inject_Z 0 * max_segment_duration self)%Q as H0
      by (simpl; ring).
  destruct (strides_lookup self audio_path duration Ht 0 full Hs 0 j s H0 Hj)
    as (Hst & _ & _).
  unfold extracted. rewrite Hp, He.
  destruct (Hok j (seg_start s) Hst Hlt) as [bytes ->].
  reflexivity.
Qed.

Lemma split_loop_fuel_mono (self : GeminiTranscriber) (e : Env)
    (audio_path : Path) (duration : Q) (fuel : nat) :
  forall fuel' current segments w r,
    (fuel <= fuel')%nat ->
    split_loop fuel self e audio_path duration current segments w = Some r ->
    split_loop fuel' self e audio_path duration current segments w = Some r.
Proof.
  induction fuel as [|fuel IH]; intros fuel' current segments w r Hle Hrun.
  - simpl in Hrun. destruct (Qle_bool duration current) eqn:E; [|congruence].
    destruct fuel'; simpl; now rewrite E.
  - destruct fuel' as [|fuel']; [lia|].
    cbn [split_loop] in *. destruct (Qle_bool duration current); [exact Hrun|].
    destruct (_create_segment_file _ _ _ _ _ _) as [sp w1].
    apply IH; [lia|exact Hrun].
Qed.

(** The duration the prober hands to the planner. *)
Lemma get_audio_duration_world (e : Env) (audio_path : Path) (w : World) :
  snd (get_audio_duration e audio_path w) = emit (EvProbe audio_path) w.
Proof. unfold get_audio_duration. now destruct (ffprobe e audio_path). Qed.

Lemma get_audio_duration_probe (e : Env) (audio_path : Path) (w : World) :
  get_audio_duration e audio_path w
  = (probe_duration e audio_path, emit (EvProbe audio_path) w).
Proof.
  unfold get_audio_duration, probe_duration.
  now destruct (ffprobe e audio_path).
Qed.

(** C1, as the float arithmetic of the planner allows it. With probed
    duration [d] and a positive threshold [t]: when [d <= t] the planner
    returns the single segment [(audio_path, 0, d)] and only probes (no
    extraction, file system untouched). When [d > t], the threshold is a
    whole number of seconds, [d + t] stays within [2^53] and the
    extraction of every stride succeeds, it returns [ceil(d/t)] segments,
    contiguous, the first starting at 0, the last ending at [d], the
    [j]-th starting at [j * t], spanning at most [t], and extracted to the
    file whose index is [1 + floor(start / t) = j + 1]. *)
Theorem split_audio_file_plan (self : GeminiTranscriber) (e : Env)
    (audio_path : Path) (w : World) :
  let t := max_segment_duration self in
  let d := fst (get_audio_duration e audio_path w) in
  (0 < t)%Q ->
  ((d <= t)%Q ->
   forall fuel,
     split_audio_file_binary64 fuel self e audio_path w
     = Some ([mkSegment audio_path 0 d], emit (EvProbe audio_path) w))
  /\ ((t < d)%Q ->
      exact_sums t d ->
      extraction_succeeds self e audio_path d ->
      exists segs w',
        (forall fuel, (Z.to_nat (Qceiling (d / t)) <= fuel)%nat ->
           split_audio_file_binary64 fuel self e audio_path w
           = Some (segs, w'))
        /\ Z.of_nat (length segs) = Qceiling (d / t)
        /\ contiguous segs
        /\ (forall s, head segs = Some s -> seg_start s = 0%Q)
        /\ (forall s, last segs = Some s -> (seg_end s == d)%Q)
        /\ (forall j s, segs !! j = Some s ->
              (seg_start s == inject_Z (Z.of_nat j) * t)%Q
              /\ (seg_end s - seg_start s <= t)%Q
              /\ 1 + Qfloor (seg_start s / t) = Z.of_nat j + 1
              /\ seg_path s
                 = mkPath (parent audio_path)
                          (fmt_0d 3 (1 + Qfloor (seg_start s / t))
                           ++ suffix audio_path))).
Proof.
  intros t d.
  pose proof (eq_refl : t = max_segment_duration self) as Et.
  pose proof (eq_refl : d = fst (get_audio_duration e audio_path w)) as Ed.
  clearbody t d. intros Ht.
  pose proof (get_audio_duration_world e audio_path w) as Hw.
  assert (Hshort : forall fuel, Qle_bool d t = true ->
    split_audio_file_binary64 fuel self e audio_path w
    = Some ([mkSegment audio_path 0 d], emit (EvProbe audio_path) w)).
  { intros fuel E. unfold split_audio_file_binary64.
    destruct (get_audio_duration e audio_path w) as [d0 w1]. simpl in *.
    subst d0 w1 t. now rewrite E. }
  assert (Hsplit : forall fuel, Qle_bool d t = false ->
    split_audio_file fuel self e audio_path w
    = split_loop fuel self e audio_path d 0 [] (emit (EvProbe audio_path) w)).
  { intros fuel E. unfold split_audio_file.
    destruct (get_audio_duration e audio_path w) as [d0 w1]. simpl in *.
    subst d0 w1 t. now rewrite E. }
  split.
  - intros Hd fuel. apply Hshort. now apply Qle_bool_iff.
  - intros Hd Hx Hok.
    assert (Qle_bool d t = false) as Hb.
    { destruct (Qle_bool d t) eqn:E; [|reflexivity].
      apply Qle_bool_iff in E. lra. }
    subst t. remember (max_segment_duration self) as t eqn:Et.
    assert (0 <= Qceiling (d / t)) as Hn0.
    { apply Z.lt_le_incl. rewrite Zlt_Qlt.
      eapply Qlt_le_trans; [|apply Qle_ceiling].
      apply Qlt_shift_div_l; [lra|]. change (inject_Z 0) with 0%Q. lra. }
    assert (Ht' : (0 < max_segment_duration self)%Q) by now rewrite <- Et.
    assert (Hx' : exact_sums (max_segment_duration self)
                    (fst (get_audio_duration e audio_path w)))
      by now rewrite <- Et, <- Ed.
    destruct (split_loop_terminates self e audio_path d Ht'
                (Z.to_nat (Qceiling (d / t))) 0 []
                (emit (EvProbe audio_path) w)) as [[segs w'] Hrun].
    { rewrite Z2Nat.id by exact Hn0. rewrite <- Et.
      assert (d - 0 == d / t * t)%Q as -> by (field; lra).
      apply Qmult_le_compat_r; [apply Qle_ceiling|lra]. }
    pose proof (split_loop_strides self e audio_path d _ Ht' Hok _ _ _ Hrun)
      as Hs.
    exists segs, w'.
    assert (0 == inject_Z 0 * max_segment_duration self)%Q as H0
        by (simpl; ring).
    split; [|split; [|split; [|split; [|split]]]].
    + intros fuel Hf.
      rewrite (split_audio_file_binary64_exact self e audio_path w fuel Ht' Hx').
      rewrite Hsplit by exact Hb.
      eapply split_loop_fuel_mono; [exact Hf|exact Hrun].
    + rewrite (strides_length self audio_path d Ht' 0 segs Hs 0 H0);
        [rewrite <- Et; lia|lra].
    + eapply strides_contiguous; exact Hs.
    + intros s. eapply strides_head. exact Hs.
    + intros s. eapply strides_last. exact Hs.
    + intros j s Hj.
      destruct (strides_lookup self audio_path d Ht' 0 segs Hs 0 j s H0 Hj)
        as (Hst & Hlen & Hp).
      simpl in Hst, Hp. rewrite <- Et in Hst, Hlen.
      assert (Qfloor (seg_start s / t) = Z.of_nat j) as Hfl.
      { rewrite (Qfloor_comp _ (inject_Z (Z.of_nat j) * t / t)).
        - now apply Qfloor_multiple.
        - now rewrite Hst. }
      repeat split; [exact Hst|exact Hlen|lia|].
      rewrite Hp, Hfl. f_equal. f_equal. f_equal. lia.
Qed.

Lemma split_audio_file_plan_witness :
  exists segs w',
    split_audio_file_binary64 2 sample_transcriber sample_env sample_audio
                              sample_world
    = Some (segs, w')
    /\ Z.of_nat (length segs) = 2
    /\ contiguous segs.
Proof.
  destruct (split_audio_file_plan sample_transcriber sample_env sample_audio
              sample_world) as [_ H]; [reflexivity|].
  destruct H as (segs & w' & Hrun & Hlen & Hc & _).
  - reflexivity.
  - split; [exists 1800; reflexivity|vm_compute; discriminate].
  - intros j start _ _. exists [1%N]. reflexivity.
  - exists segs, w'. split; [apply Hrun; vm_compute; lia|].
    split; [exact Hlen|exact Hc].
Defined.

(** C1 as claimed fails for a threshold that is no whole number of
    seconds. With the float nearest to 0.1 as threshold, a duration of one
    second and an extractor that always succeeds, the sums
    [0.1 + 0.1 + ...] drift: the planner returns eleven segments where
    [ceil(d/t)] is ten, and the strides starting at 0.4 and at 0.5 are both
    extracted to the file numbered 5. With exact sums the loop would
    return ten. *)
Lemma split_audio_file_tenth_counterexample :
  match split_audio_file_binary64 11 tenth_transcriber one_second_env
          sample_audio sample_world with
  | Some (segs, _) =>
      Qceiling (fst (get_audio_duration one_second_env sample_audio
                       sample_world)
                / max_segment_duration tenth_transcriber) = 10
      /\ length segs = 11%nat
      /\ List.map (fun s => name (seg_path s)) segs
         = [lit "001.mp3"; lit "002.mp3"; lit "003.mp3"; lit "004.mp3";
            lit "005.mp3"; lit "005.mp3"; lit "006.mp3"; lit "007.mp3";
            lit "008.mp3"; lit "009.mp3"; lit "010.mp3"]
      /\ match split_audio_file 11 tenth_transcriber one_second_env
                 sample_audio sample_world with
         | Some (exact, _) => length exact = 10%nat
         | None => False
         end
  | None => False
  end.
Proof. vm_compute. repeat split. Qed.




(** ** Transcription worker: the retry wrapper *)

Lemma emit_appended (ev : event) (w : World) : appended w (emit ev w) [ev].
Proof. split; reflexivity. Qed.

Lemma appended_refl (w : World) : appended w w [].
Proof. split; [reflexivity|now rewrite app_nil_r]. Qed.

Lemma appended_trans (w1 w2 w3 : World) (l1 l2 : list event) :
  appended w1 w2 l1 -> appended w2 w3 l2 -> appended w1 w3 (l1 ++ l2).
Proof.
  intros [F1 L1] [F2 L2]. split; [congruence|].
  now rewrite L2, L1, app_assoc.
Qed.

(** When the service raises on every attempt the wrapper calls it three
    times, sleeps 2 s and 4 s in between, and returns [None]. *)
Lemma retry_always_raises (root : list pystr) (e : Env) (seg : Path)
    (w : World) :
  always_raises e seg ->
  exists w',
    _call_gemini_api_with_retry (default_transcriber root) e seg w = (None, w')
    /\ appended w w'
         [EvApiCall seg 0; EvSleep 2; EvApiCall seg 1; EvSleep 4;
          EvApiCall seg 2].
Proof.
  intros H. unfold _call_gemini_api_with_retry. simpl.
  rewrite !H. simpl. eexists. split; [reflexivity|].
  split; [reflexivity|]. simpl. now rewrite <- !app_assoc.
Qed.

(** Whatever the mix of exceptions and empty responses, a service that
    never delivers text is called exactly three times and the wrapper
    returns [None]; it pauses only after the exceptions among the first two
    attempts. *)
Lemma retry_exhausted (root : list pystr) (e : Env) (seg : Path) (w : World) :
  (forall attempt, attempt_fails e seg attempt) ->
  exists w',
    _call_gemini_api_with_retry (default_transcriber root) e seg w = (None, w')
    /\ appended w w'
         ([EvApiCall seg 0] ++ backoff_after e seg 0
          ++ [EvApiCall seg 1] ++ backoff_after e seg 1
          ++ [EvApiCall seg 2]).
Proof.
  intros H. unfold _call_gemini_api_with_retry. simpl.
  pose proof (H 0%nat) as H0. pose proof (H 1%nat) as H1.
  pose proof (H 2%nat) as H2. unfold attempt_fails, backoff_after in *.
  destruct (generate_content_stream e seg 0) as [|c0];
    destruct (generate_content_stream e seg 1) as [|c1];
    destruct (generate_content_stream e seg 2) as [|c2];
    rewrite ?H0, ?H1, ?H2; simpl;
    (eexists; split; [reflexivity|]; split; [reflexivity|]; simpl;
     now rewrite <- ?app_assoc).
Qed.

(** C3 on the empty-response trigger. When every attempt ends with an empty
    accumulated response the wrapper calls the service three times and
    returns [None], and it does not sleep between the attempts: the log
    holds the three calls and nothing else. *)
Theorem retry_always_empty_no_backoff (root : list pystr) (e : Env)
    (seg : Path) (w : World) :
  always_empty e seg ->
  exists w',
    _call_gemini_api_with_retry (default_transcriber root) e seg w = (None, w')
    /\ appended w w' [EvApiCall seg 0; EvApiCall seg 1; EvApiCall seg 2].
Proof.
  intros H. unfold _call_gemini_api_with_retry. simpl.
  destruct (H 0%nat) as (c0 & -> & ->).
  destruct (H 1%nat) as (c1 & -> & ->).
  destruct (H 2%nat) as (c2 & -> & ->).
  eexists. split; [reflexivity|].
  split; [reflexivity|]. simpl. now rewrite <- !app_assoc.
Qed.

Lemma retry_always_empty_no_backoff_witness :
  exists w',
    _call_gemini_api_with_retry sample_transcriber blank_env sample_audio
                                sample_world = (None, w')
    /\ appended sample_world w'
         [EvApiCall sample_audio 0; EvApiCall sample_audio 1;
          EvApiCall sample_audio 2].
Proof.
  apply (retry_always_empty_no_backoff sample_root blank_env sample_audio
           sample_world).
  intros attempt. eexists. split; reflexivity.
Defined.

(** ** Transcription worker: effects and results *)

Lemma extends_harmlessly_refl (w : World) : extends_harmlessly w w.
Proof. exists []. split; [now rewrite app_nil_r|constructor]. Qed.

Lemma extends_harmlessly_trans (w1 w2 w3 : World) :
  extends_harmlessly w1 w2 -> extends_harmlessly w2 w3 ->
  extends_harmlessly w1 w3.
Proof.
  intros (l1 & E1 & H1) (l2 & E2 & H2). exists (l1 ++ l2).
  split; [now rewrite E2, E1, app_assoc|now apply Forall_app].
Qed.

Lemma emit_harmless (ev : event) (w : World) :
  harmless ev -> extends_harmlessly w (emit ev w).
Proof. intros H. exists [ev]. split; [reflexivity|now constructor]. Qed.

(** The retry loop only reads the service: its result does not depend on
    the world, and it leaves the file system alone. *)
Lemma retry_loop_effects (self : GeminiTranscriber) (e : Env) (seg : Path)
    (attempts : list nat) :
  forall w,
    fs (snd (retry_loop self e seg attempts w)) = fs w
    /\ extends_harmlessly w (snd (retry_loop self e seg attempts w))
    /\ forall w0,
         fst (retry_loop self e seg attempts w)
         = fst (retry_loop self e seg attempts w0).
Proof.
  induction attempts as [|a rest IH]; intros w; cbn [retry_loop].
  - split; [reflexivity|]. split; [apply extends_harmlessly_refl|reflexivity].
  - destruct (generate_content_stream e seg a) as [|chunks].
    + destruct (a <? max_retries self - 1)%nat;
        [destruct (sleep_raises (retry_delay self * (Z.of_nat a + 1)))|].
      * split; [reflexivity|].
        split; [now apply emit_harmless|reflexivity].
      * destruct (IH (emit (EvSleep (retry_delay self * (Z.of_nat a + 1)))
                        (emit (EvApiCall seg a) w))) as (F & H & R).
        split; [exact F|]. split; [|intros w0; apply R].
        eapply extends_harmlessly_trans; [|exact H].
        eapply extends_harmlessly_trans; apply emit_harmless; exact I.
      * destruct (IH (emit (EvApiCall seg a) w)) as (F & H & R).
        split; [exact F|]. split; [|intros w0; apply R].
        eapply extends_harmlessly_trans; [|exact H].
        now apply emit_harmless.
    + destruct (strip (accumulate chunks)) as [|c t].
      * destruct (IH (emit (EvApiCall seg a) w)) as (F & H & R).
        split; [exact F|]. split.
        -- eapply extends_harmlessly_trans; [|exact H].
           now apply emit_harmless.
        -- intros w0. apply R.
      * split; [reflexivity|].
        split; [now apply emit_harmless|reflexivity].
Qed.

Lemma retry_loop_result_tidy (self : GeminiTranscriber) (e : Env) (seg : Path)
    (attempts : list nat) :
  forall w full_text,
    fst (retry_loop self e seg attempts w) = Some full_text ->
    full_text <> [] /\ strip full_text = full_text.
Proof.
  induction attempts as [|a rest IH]; intros w full_text; cbn [retry_loop];
    [discriminate|].
  destruct (generate_content_stream e seg a) as [|chunks].
  { destruct (a <? max_retries self - 1)%nat; [|apply IH].
    destruct (sleep_raises (retry_delay self * (Z.of_nat a + 1)));
      [discriminate|apply IH]. }
  destruct (strip (accumulate chunks)) as [|c t] eqn:E; [apply IH|].
  intros [= <-]. split; [discriminate|].
  rewrite <- E. apply strip_idempotent.
Qed.

(** The worker reads the segment file and the service, nothing else: its
    result is a function of the file system, and the world it leaves differs
    only by harmless log entries. *)
Lemma transcribe_segment_async_effects (self : GeminiTranscriber) (e : Env)
    (segment_info : Segment) (w : World) :
  fst (transcribe_segment_async self e segment_info w)
  = worker_result self e (fs w) segment_info
  /\ fs (snd (transcribe_segment_async self e segment_info w)) = fs w
  /\ extends_harmlessly w (snd (transcribe_segment_async self e segment_info w)).
Proof.
  unfold worker_result, transcribe_segment_async, _call_gemini_api_with_retry.
  cbn [fs emit].
  destruct (encode_audio_to_base64 (fs w) (seg_path segment_info))
    as [[|b bytes]|].
  - split; [reflexivity|]. split; [reflexivity|now apply emit_harmless].
  - set (w1 := emit (EvRead (seg_path segment_info)) w).
    set (w0 := emit (EvRead (seg_path segment_info)) (mkWorld (fs w) [])).
    destruct (retry_loop_effects self e (seg_path segment_info)
                (seq 0 (max_retries self)) w1) as (F & H & R).
    specialize (R w0).
    destruct (retry_loop self e (seg_path segment_info) _ w1) as [o1 w2].
    destruct (retry_loop self e (seg_path segment_info) _ w0) as [o0 w3].
    simpl in F, H, R. subst o0.
    assert (extends_harmlessly w w2) as Hw.
    { eapply extends_harmlessly_trans; [|exact H]. now apply emit_harmless. }
    destruct o1 as [[|c t]|]; simpl; auto.
  - split; [reflexivity|]. split; [reflexivity|now apply emit_harmless].
Qed.

(** A result the worker returns carries the offsets of its segment and a
    stripped, non-empty text. *)
Lemma worker_result_some (self : GeminiTranscriber) (e : Env)
    (f : gmap Path node) (g : Segment) (r : TranscriptionResult) :
  worker_result self e f g = Some r ->
  start_time r = seg_start g /\ end_time r = seg_end g
  /\ segment_path r = seg_path g
  /\ text r <> [] /\ strip (text r) = text r.
Proof.
  unfold worker_result, transcribe_segment_async, _call_gemini_api_with_retry.
  destruct (encode_audio_to_base64 _ _) as [[|b bytes]|]; try discriminate.
  set (w1 := emit _ _).
  pose proof (retry_loop_result_tidy self e (seg_path g)
                (seq 0 (max_retries self)) w1) as Ht.
  destruct (retry_loop self e (seg_path g) _ w1) as [[[|c t]|] w2];
    try discriminate.
  intros [= <-]. cbn [text start_time end_time segment_path].
  destruct (Ht (c :: t) eq_refl) as [Hne Hs].
  repeat split; try reflexivity.
  - now rewrite Hs.
  - now rewrite Hs, Hs.
Qed.

Lemma await_all_effects (self : GeminiTranscriber) (e : Env)
    (completed : list Segment) :
  forall results w,
    fst (await_all self e completed results w)
    = results ++ omap (worker_result self e (fs w)) completed
    /\ fs (snd (await_all self e completed results w)) = fs w
    /\ extends_harmlessly w (snd (await_all self e completed results w)).
Proof.
  induction completed as [|s rest IH]; intros results w; cbn [await_all].
  - rewrite app_nil_r.
    split; [reflexivity|]. split; [reflexivity|apply extends_harmlessly_refl].
  - destruct (transcribe_segment_async_effects self e s w) as (R & F & H).
    destruct (transcribe_segment_async self e s w) as [result w1].
    simpl in R, F, H. subst result.
    destruct (IH (match worker_result self e (fs w) s with
                  | Some r => results ++ [r]
                  | None => results
                  end) (emit (EvTaskDone (seg_path s)) w1)) as (R1 & F1 & H1).
    cbn [emit fs] in R1, F1. rewrite R1, F1, F. cbn [omap list_omap].
    split; [|split; [reflexivity|]].
    + destruct (worker_result self e (fs w) s); [|reflexivity].
      now rewrite <- app_assoc.
    + eapply extends_harmlessly_trans; [exact H|].
      eapply extends_harmlessly_trans; [|exact H1].
      now apply emit_harmless.
Qed.

Lemma schedule_all_effects (tasks : list Segment) :
  forall w,
    fs (schedule_all tasks w) = fs w
    /\ log (schedule_all tasks w)
       = log w ++ List.map (fun s => EvTaskScheduled (seg_path s)) tasks.
Proof.
  unfold schedule_all.
  induction tasks as [|s rest IH]; intros w; cbn [fold_left List.map].
  - split; [reflexivity|now rewrite app_nil_r].
  - destruct (IH (emit (EvTaskScheduled (seg_path s)) w)) as [F L].
    split; [exact F|]. rewrite L. cbn [emit log].
    now rewrite <- app_assoc.
Qed.

Lemma schedule_all_harmless (tasks : list Segment) (w : World) :
  extends_harmlessly w (schedule_all tasks w).
Proof.
  destruct (schedule_all_effects tasks w) as [_ L].
  eexists. split; [exact L|].
  apply Forall_forall. intros ev Hin.
  apply list_elem_of_In, in_map_iff in Hin as (s & <- & _). exact I.
Qed.

Lemma transcribe_audio_parallel_effects (self : GeminiTranscriber) (e : Env)
    (segments : list Segment) (w : World) :
  fst (transcribe_audio_parallel self e segments w)
  = sort_by_start
      (omap (worker_result self e (fs w)) (completion_order e segments))
  /\ fs (snd (transcribe_audio_parallel self e segments w)) = fs w
  /\ extends_harmlessly w (snd (transcribe_audio_parallel self e segments w)).
Proof.
  unfold transcribe_audio_parallel.
  destruct (schedule_all_effects segments w) as [F0 _].
  pose proof (schedule_all_harmless segments w) as H0.
  destruct (await_all_effects self e (completion_order e segments) []
              (schedule_all segments w)) as (R & F & H).
  destruct (await_all self e (completion_order e segments) []
              (schedule_all segments w)) as [results w1].
  simpl in R, F, H. subst results. cbn [fst snd]. rewrite F0 in *.
  split; [reflexivity|]. split; [exact F|].
  eapply extends_harmlessly_trans; eassumption.
Qed.

(** ** Ordering of results *)

Lemma insert_by_start_perm (r : TranscriptionResult)
    (l : list TranscriptionResult) :
  insert_by_start r l ≡ₚ r :: l.
Proof.
  induction l as [|x rest IH]; simpl; [reflexivity|].
  destruct (Qle_bool (start_time x) (start_time r)); [|reflexivity].
  rewrite IH. apply perm_swap.
Qed.

Lemma insert_by_start_sorted (r : TranscriptionResult)
    (l : list TranscriptionResult) :
  StronglySorted start_le l -> StronglySorted start_le (insert_by_start r l).
Proof.
  induction 1 as [|x rest Hs IH Hx]; simpl.
  - repeat constructor.
  - destruct (Qle_bool (start_time x) (start_time r)) eqn:E.
    + constructor; [exact IH|].
      rewrite insert_by_start_perm. constructor; [|exact Hx].
      now apply Qle_bool_iff.
    + pose proof (Qle_bool_false_lt _ _ E) as Hlt.
      constructor; [now constructor|].
      constructor; [unfold start_le; lra|].
      eapply Forall_impl; [exact Hx|].
      intros y Hy. unfold start_le in *. lra.
Qed.

Lemma sort_fold_spec (l : list TranscriptionResult) :
  forall acc,
    StronglySorted start_le acc ->
    StronglySorted start_le
      (fold_left (fun acc r => insert_by_start r acc) l acc)
    /\ fold_left (fun acc r => insert_by_start r acc) l acc ≡ₚ acc ++ l.
Proof.
  induction l as [|r l IH]; intros acc Hacc; simpl.
  - split; [exact Hacc|now rewrite app_nil_r].
  - destruct (IH (insert_by_start r acc)) as [Hs Hp].
    { now apply insert_by_start_sorted. }
    split; [exact Hs|].
    rewrite Hp, insert_by_start_perm. simpl. apply Permutation_middle.
Qed.

Lemma sort_by_start_sorted (l : list TranscriptionResult) :
  StronglySorted start_le (sort_by_start l).
Proof. apply sort_fold_spec. constructor. Qed.

Lemma sort_by_start_perm (l : list TranscriptionResult) :
  sort_by_start l ≡ₚ l.
Proof. apply (sort_fold_spec l []). constructor. Qed.

(** With distinct start offsets the sorted order does not depend on the
    order in which the results arrived. *)
Lemma sort_by_start_order_invariant (l l' : list TranscriptionResult) :
  l ≡ₚ l' -> distinct_starts l -> sort_by_start l = sort_by_start l'.
Proof.
  intros Hp Hd.
  apply (StronglySorted_unique_strong start_le).
  - intros x y Hx Hy Hxy Hyx. apply Hd.
    + now rewrite sort_by_start_perm in Hx.
    + now rewrite sort_by_start_perm, <- Hp in Hy.
    + unfold start_le in *. lra.
  - apply sort_by_start_sorted.
  - apply sort_by_start_sorted.
  - now rewrite !sort_by_start_perm.
Qed.

(** The order in which the tasks of a batch complete has no influence on
    the sorted results, provided the segments start at different offsets,
    as the segments of one plan do. *)
Lemma completion_order_irrelevant (self : GeminiTranscriber) (e : Env)
    (f : gmap Path node) (segs order1 order2 : list Segment) :
  order1 ≡ₚ segs -> order2 ≡ₚ segs ->
  (forall g g', g ∈ segs -> g' ∈ segs ->
                (seg_start g == seg_start g')%Q -> g = g') ->
  sort_by_start (omap (worker_result self e f) order1)
  = sort_by_start (omap (worker_result self e f) order2).
Proof.
  intros H1 H2 Hd. apply sort_by_start_order_invariant.
  - now rewrite H1, H2.
  - intros x y Hx Hy Heq.
    apply list_elem_of_omap in Hx as (g & Hg & Hx).
    apply list_elem_of_omap in Hy as (g' & Hg' & Hy).
    destruct (worker_result_some _ _ _ _ _ Hx) as (Sx & _).
    destruct (worker_result_some _ _ _ _ _ Hy) as (Sy & _).
    rewrite H1 in Hg, Hg'.
    assert (g = g') as <- by (apply Hd; [assumption..|now rewrite <- Sx, <- Sy]).
    congruence.
Qed.



(** ** Merged text *)

Lemma block_label_head (i : nat) (start finish : Q) :
  exists r, block_label i start finish = 45%N :: r.
Proof. unfold block_label. simpl. eexists. reflexivity. Qed.

Lemma block_starts_tidy (i : nat) (r : TranscriptionResult) (rest : pystr) :
  block i r ++ rest <> [] /\ lstrip (block i r ++ rest) = block i r ++ rest.
Proof.
  unfold block.
  destruct (block_label_head i (start_time r) (end_time r)) as [l ->].
  split; [discriminate|reflexivity].
Qed.

(** What the merge loop adds to its accumulators in a multi-block merge. *)
Lemma merge_loop_blocks (n : nat) (rs : list TranscriptionResult) :
  (1 < n)%nat ->
  forall i full_text merged,
    fold_left (merge_step n) (combine (seq i (length rs)) rs)
              (full_text, merged)
    = (full_text ++ labelled_blocks (S i) rs, merged ++ listing rs).
Proof.
  intros Hn. induction rs as [|r rs IH]; intros i full_text merged.
  - simpl. now rewrite !app_nil_r.
  - cbn [length seq combine fold_left labelled_blocks listing].
    unfold merge_step at 2.
    apply Nat.ltb_lt in Hn. rewrite Hn.
    destruct (strip (text r)) as [|c t] eqn:E; [apply IH|].
    rewrite IH. unfold block, block_header. rewrite E, Nat.add_1_r.
    f_equal; now rewrite <- !app_assoc.
Qed.

Lemma labelled_blocks_shape (rs : list TranscriptionResult) :
  forall i,
    labelled_blocks i rs = []
    \/ exists body,
         labelled_blocks i rs = NL :: NL :: body /\ body <> [] /\ tidy body.
Proof.
  induction rs as [|r rs IH]; intros i; [now left|].
  cbn [labelled_blocks].
  destruct (strip (text r)) as [|c t] eqn:E; [apply IH|].
  right. eexists. split; [reflexivity|].
  destruct (block_starts_tidy i r (labelled_blocks (S i) rs)) as [Hne Hl].
  split; [exact Hne|].
  destruct (IH (S i)) as [->|(body & -> & Hb & Ht)].
  - rewrite app_nil_r. unfold block.
    rewrite app_assoc. apply tidy_app.
    + now destruct (block_label _ _ _).
    + rewrite E. discriminate.
    + destruct (block_label_head i (start_time r) (end_time r)) as [l ->].
      reflexivity.
    + apply strip_tidy.
  - change (NL :: NL :: body) with ([NL; NL] ++ body).
    rewrite app_assoc. apply tidy_app.
    + now destruct (block i r).
    + exact Hb.
    + apply block_starts_tidy.
    + apply Ht.
Qed.

Lemma strip_labelled_blocks (i : nat) (rs : list TranscriptionResult) :
  strip (labelled_blocks i rs) = drop 2 (labelled_blocks i rs).
Proof.
  destruct (labelled_blocks_shape rs i) as [->|(body & -> & _ & Ht)];
    [reflexivity|].
  cbn [drop]. rewrite <- (strip_of_tidy body Ht) at 2. reflexivity.
Qed.

(** A merge of several results is the sequence of their blocks, without
    the blank line that would open it. *)
Lemma merge_multi (e : Env) (rs : list TranscriptionResult) :
  (1 < length rs)%nat ->
  merged_text (merge_transcription_results e rs)
  = drop 2 (labelled_blocks 1 rs)
  /\ merged_segments (merge_transcription_results e rs) = listing rs.
Proof.
  intros Hn. unfold merge_transcription_results, enumerate.
  destruct rs as [|r rs]; [simpl in Hn; lia|].
  pose proof (merge_loop_blocks _ (r :: rs) Hn 0 [] []) as H.
  destruct (fold_left _ _ _) as [full_text merged].
  apply pair_equal_spec in H as [-> ->]. rewrite !app_nil_l.
  cbn [merged_text merged_segments].
  split; [apply strip_labelled_blocks|reflexivity].
Qed.

Lemma merge_first_block (e : Env) (r1 r2 : TranscriptionResult)
    (rest : list TranscriptionResult) :
  strip (text r1) <> [] ->
  merged_text (merge_transcription_results e (r1 :: r2 :: rest))
  = block 1 r1 ++ labelled_blocks 2 (r2 :: rest).
Proof.
  intros Hne.
  destruct (merge_multi e (r1 :: r2 :: rest)) as [-> _]; [simpl; lia|].
  cbn [labelled_blocks].
  destruct (strip (text r1)) eqn:E; [congruence|]. reflexivity.
Qed.

Lemma merge_single (e : Env) (r : TranscriptionResult) :
  merged_text (merge_transcription_results e [r]) = strip (text r).
Proof.
  unfold merge_transcription_results, enumerate.
  cbn [length seq combine fold_left]. unfold merge_step.
  destruct (strip (text r)) as [|c t] eqn:E; [reflexivity|].
  cbn [Nat.ltb Nat.leb app merged_text].
  rewrite <- E. apply strip_idempotent.
Qed.

Lemma merge_loop_listing (n : nat) (rs : list TranscriptionResult) :
  forall i full_text merged,
    snd (fold_left (merge_step n) (combine (seq i (length rs)) rs)
                   (full_text, merged))
    = merged ++ listing rs.
Proof.
  induction rs as [|r rs IH]; intros i full_text merged.
  - simpl. now rewrite app_nil_r.
  - cbn [length seq combine fold_left listing]. unfold merge_step at 2.
    destruct (strip (text r)) as [|c t]; [apply IH|].
    rewrite IH. now rewrite <- app_assoc.
Qed.

Lemma listing_length (rs : list TranscriptionResult) :
  (length (listing rs) <= length rs)%nat.
Proof.
  induction rs as [|r rs IH]; simpl; [lia|].
  destruct (strip (text r)); simpl; lia.
Qed.






(** C4, as the merger has it. When more than one result is merged, every
    result with text, the first included, contributes its header line
    ["--- 區塊 i (start_s - end_s) ---"] numbered by its position, followed
    by its text, and blocks are separated by a blank line; a single result
    contributes its stripped text and no header. *)
Theorem merge_block_headers (e : Env) :
  (forall rs,
     (1 < length rs)%nat ->
     merged_text (merge_transcription_results e rs)
     = drop 2 (labelled_blocks 1 rs)
     /\ merged_segments (merge_transcription_results e rs) = listing rs)
  /\ (forall r1 r2 rest,
        strip (text r1) <> [] ->
        merged_text (merge_transcription_results e (r1 :: r2 :: rest))
        = block 1 r1 ++ labelled_blocks 2 (r2 :: rest))
  /\ (forall r,
        merged_text (merge_transcription_results e [r]) = strip (text r)).
Proof.
  split; [apply merge_multi|]. split; [apply merge_first_block|].
  apply merge_single.
Qed.

(** C4 as claimed fails on the first block: the merged text of two results
    opens with the header of block 1, not with the first result's text. *)
Lemma merge_first_block_counterexample :
  let m := merged_text (merge_transcription_results sample_env
                          [first_half; second_half]) in
  m = block 1 first_half ++ [NL; NL] ++ block 2 second_half
  /\ starts_with (block_label 1 0 (inject_Z 1800) ++ [NL] ++ text first_half) m
     = true
  /\ starts_with (text first_half) m = false.
Proof. vm_compute. repeat split. Qed.

(** ** Audio inventory and segment files *)

Lemma lit_txt_shape :
  exists r, lit ".txt" = DOT :: r /\ r <> [] /\ DOT ∉ r.
Proof.
  eexists. split; [reflexivity|]. split; [discriminate|].
  intros H. apply list_elem_of_In in H. simpl in H.
  repeat (destruct H as [H|H]; [discriminate H|]). exact H.
Qed.

Lemma segment_file_suffix (self : GeminiTranscriber) (audio_path : Path)
    (start : Q) :
  suffix (segment_file self audio_path start) = suffix audio_path.
Proof.
  unfold suffix at 1, segment_file. cbn [name].
  destruct (fmt_0d_chars 3 (segment_index self start)) as [Hne _].
  apply suffix_of_app; [exact Hne|apply fmt_0d_no_dot|].
  apply suffix_of_shape.
Qed.

(** The artifact of a segment file is named by the index alone. *)
Lemma segment_file_transcript (self : GeminiTranscriber) (audio_path : Path)
    (start : Q) :
  get_transcript_path (segment_file self audio_path start)
  = mkPath (parent audio_path)
           (fmt_0d 3 (segment_index self start) ++ lit ".txt").
Proof.
  unfold get_transcript_path, with_suffix.
  rewrite segment_file_suffix. unfold segment_file. cbn [parent name].
  rewrite length_app, Nat.add_sub. now rewrite take_app_length.
Qed.

Lemma transcript_path_name (audio_path : Path) :
  exists stem_part,
    name audio_path = stem_part ++ suffix audio_path
    /\ name (get_transcript_path audio_path) = stem_part ++ lit ".txt".
Proof.
  unfold get_transcript_path, with_suffix, suffix. cbn [name].
  destruct (suffix_of_shape (name audio_path)) as [_ H].
  eexists. split; [symmetry; exact H|reflexivity].
Qed.

(** Writing the artifact never touches the audio file it belongs to. *)
Lemma transcript_path_fresh (audio_path : Path) :
  suffix audio_path <> lit ".txt" ->
  get_transcript_path audio_path <> audio_path.
Proof.
  intros Hs E. destruct (transcript_path_name audio_path) as (x & Hn & Ht).
  rewrite E, Hn in Ht. apply app_inv_head in Ht. congruence.
Qed.

(** The extractor never writes onto the artifact of its source. *)
Lemma segment_file_not_transcript (self : GeminiTranscriber)
    (audio_path : Path) (start : Q) :
  suffix audio_path <> lit ".txt" ->
  segment_file self audio_path start <> get_transcript_path audio_path.
Proof.
  intros Hs E. apply (f_equal name) in E.
  destruct (transcript_path_name audio_path) as (x & _ & Ht).
  rewrite Ht in E. unfold segment_file in E. cbn [name] in E.
  destruct lit_txt_shape as (r & Hr & Hrn & Hrd).
  pose proof (fmt_0d_no_dot 3 (segment_index self start)) as Hnd.
  destruct (suffix_of_shape (name audio_path)) as [[H0|(r' & H1 & _ & Hd')] _];
    unfold suffix in *.
  - rewrite H0, app_nil_r, Hr in E. apply Hnd. rewrite E.
    apply list_elem_of_In, in_or_app. right. now left.
  - pose proof (f_equal (rfind DOT) E) as Hf.
    rewrite H1, Hr, !rfind_last in Hf by assumption.
    injection Hf as Hlen.
    apply app_inj_1 in E as [_ E]; [congruence|exact Hlen].
Qed.

Lemma find_audio_files_spec (self : GeminiTranscriber) (f : gmap Path node)
    (p : Path) :
  In p (find_audio_files self f)
  <-> under (audio_dir self) p = true /\ is_audio_candidate self f p = true.
Proof.
  unfold find_audio_files, rglob. rewrite !filter_In. split.
  - intros [[_ Hu] Hc]. auto.
  - intros [Hu Hc]. split; [split|]; [|exact Hu|exact Hc].
    unfold is_audio_candidate, is_file in Hc.
    destruct (f !! p) as [n|] eqn:E; [|discriminate Hc].
    apply in_map_iff. exists (p, n). split; [reflexivity|].
    apply list_elem_of_In, elem_of_map_to_list. exact E.
Qed.

Lemma needs_transcription_iff (f : gmap Path node) (audio_path : Path) :
  needs_transcription f audio_path = true
  <-> f !! get_transcript_path audio_path = None.
Proof.
  unfold needs_transcription, exists_path.
  destruct (f !! get_transcript_path audio_path); simpl; split;
    congruence.
Qed.

(** C10. A segment file the extractor creates for an inventory candidate
    lies in the candidate's directory and is named by the zero-padded index
    followed by the candidate's extension, the stem playing no part; the
    name carries a supported extension and is not hidden; so any file system
    that still holds the file lists it among the audio files, and it needs
    transcription exactly as long as the artifact named after it, index plus
    the transcript extension, is missing. *)
Theorem segment_file_is_candidate (self : GeminiTranscriber) (e : Env)
    (audio_path : Path) (start finish : Q) (w w' : World) (dst : Path) :
  In audio_path (find_audio_files self (fs w)) ->
  _create_segment_file self e audio_path start finish w = (Some dst, w') ->
  parent dst = parent audio_path
  /\ name dst = fmt_0d 3 (segment_index self start) ++ suffix audio_path
  /\ lower (suffix dst) ∈ audio_extensions self
  /\ startswith_dot (name dst) = false
  /\ is_file (fs w') dst = true
  /\ get_transcript_path dst
     = mkPath (parent audio_path)
              (fmt_0d 3 (segment_index self start) ++ lit ".txt")
  /\ forall f,
       is_file f dst = true ->
       In dst (find_audio_files self f)
       /\ (needs_transcription f dst = true
           <-> f !! get_transcript_path dst = None).
Proof.
  intros Hsrc Hrun.
  apply find_audio_files_spec in Hsrc as [Hu Hc].
  unfold is_audio_candidate in Hc.
  apply andb_true_iff in Hc as [Hc _]. apply andb_true_iff in Hc as [_ Hext].
  unfold _create_segment_file in Hrun.
  destruct (Qeq_bool (max_segment_duration self) 0); [discriminate|].
  cbv zeta in Hrun.
  destruct (ffmpeg e audio_path start _ _) as [bytes|];
    [|destruct (ffmpeg_leftover e audio_path start _ _); discriminate].
  injection Hrun as <- <-.
  assert (lower (suffix (segment_file self audio_path start))
          ∈ audio_extensions self) as Hsfx.
  { rewrite segment_file_suffix. now apply bool_decide_eq_true in Hext. }
  assert (startswith_dot (name (segment_file self audio_path start)) = false)
    as Hdot by apply fmt_0d_not_hidden.
  split; [reflexivity|]. split; [reflexivity|]. split; [exact Hsfx|].
  split; [exact Hdot|]. split; [|split].
  - unfold is_file, set_fs. cbn [fs]. now rewrite lookup_insert_eq.
  - apply segment_file_transcript.
  - intros f Hf. split; [|apply needs_transcription_iff].
    apply find_audio_files_spec. split; [exact Hu|].
    unfold is_audio_candidate. rewrite Hf, Hdot.
    now rewrite (bool_decide_eq_true_2 _ Hsfx).
Qed.

Lemma segment_file_is_candidate_witness :
  In (mkPath sample_root (lit "001.mp3"))
     (find_audio_files sample_transcriber
        (<[mkPath sample_root (lit "001.mp3") := RegularFile [1%N]]>
           (fs sample_world))).
Proof.
  assert (In sample_audio (find_audio_files sample_transcriber
                             (fs sample_world))) as Hsrc
      by (vm_compute; left; reflexivity).
  assert (_create_segment_file sample_transcriber sample_env sample_audio 0
            (inject_Z 1800) sample_world
          = (Some (mkPath sample_root (lit "001.mp3")),
             snd (_create_segment_file sample_transcriber sample_env
                    sample_audio 0 (inject_Z 1800) sample_world))) as Hrun
      by (vm_compute; reflexivity).
  pose proof (segment_file_is_candidate _ _ _ _ _ _ _ _ Hsrc Hrun)
    as (_ & _ & _ & _ & _ & _ & H).
  refine (proj1 (H _ _)). vm_compute. reflexivity.
Defined.

(** ** A missing segment *)

Lemma sort_two (r1 r3 : TranscriptionResult) (l : list TranscriptionResult) :
  l ≡ₚ [r1; r3] ->
  (start_time r1 < start_time r3)%Q ->
  sort_by_start l = [r1; r3].
Proof.
  intros Hp Hlt.
  rewrite <- (sort_by_start_order_invariant [r1; r3] l).
  - unfold sort_by_start. simpl.
    assert (Qle_bool (start_time r1) (start_time r3) = true) as ->
        by (apply Qle_bool_iff; lra).
    reflexivity.
  - now symmetry.
  - intros x y Hx Hy Heq.
    apply list_elem_of_In in Hx, Hy. simpl in Hx, Hy.
    destruct Hx as [<-|[<-|[]]], Hy as [<-|[<-|[]]];
      solve [reflexivity | lra].
Qed.

(** C6, as the pipeline has it. When the second of three segments yields
    no result and the others succeed, the batch holds the results of
    segments 1 and 3 in that order; the merged text and the listing carry
    exactly their texts; the contribution of segment 3 keeps its own start
    and end offsets, and its block number is its position among the
    surviving results, 2, in the merged text and in the detailed section
    of the artifact. *)
Theorem missing_segment_merge (self : GeminiTranscriber) (e : Env) (w : World)
    (g1 g2 g3 : Segment) (r1 r3 : TranscriptionResult) :
  completion_order e [g1; g2; g3] ≡ₚ [g1; g2; g3] ->
  worker_result self e (fs w) g1 = Some r1 ->
  worker_result self e (fs w) g2 = None ->
  worker_result self e (fs w) g3 = Some r3 ->
  (seg_start g1 < seg_start g3)%Q ->
  let results := fst (transcribe_audio_parallel self e [g1; g2; g3] w) in
  let m := merge_transcription_results e results in
  results = [r1; r3]
  /\ merged_text m
     = block_label 1 (seg_start g1) (seg_end g1) ++ [NL] ++ text r1
       ++ [NL; NL]
       ++ block_label 2 (seg_start g3) (seg_end g3) ++ [NL] ++ text r3
  /\ merged_segments m
     = [mkMergedSegment (seg_start g1) (seg_end g1) (text r1);
        mkMergedSegment (seg_start g3) (seg_end g3) (text r3)]
  /\ total_segments m = Some 2%nat
  /\ detail_section (merged_segments m)
     = [35443; 32048; 20998; 27573]%N ++ lit ":" ++ [NL]
       ++ (lit "[" ++ [21312; 22602]%N ++ lit " 1] "
           ++ mmss (seg_start g1) ++ lit " - " ++ mmss (seg_end g1) ++ [NL]
           ++ text r1 ++ [NL; NL])
       ++ (lit "[" ++ [21312; 22602]%N ++ lit " 2] "
           ++ mmss (seg_start g3) ++ lit " - " ++ mmss (seg_end g3) ++ [NL]
           ++ text r3 ++ [NL; NL]).
Proof.
  intros Hp H1 H2 H3 Hlt results m.
  destruct (worker_result_some _ _ _ _ _ H1) as (S1 & E1 & _ & N1 & T1).
  destruct (worker_result_some _ _ _ _ _ H3) as (S3 & E3 & _ & N3 & T3).
  assert (results = [r1; r3]) as Hr.
  { subst results.
    destruct (transcribe_audio_parallel_effects self e [g1; g2; g3] w)
      as (-> & _ & _).
    apply sort_two; [|now rewrite S1, S3].
    rewrite Hp. cbn [omap list_omap]. now rewrite H1, H2, H3. }
  split; [exact Hr|]. subst m. rewrite Hr.
  pose proof (merge_first_block e) as Hfirst.
  destruct (merge_multi e [r1; r3]) as [_ Hl]; [simpl; lia|].
  assert (listing [r1; r3]
          = [mkMergedSegment (seg_start g1) (seg_end g1) (text r1);
             mkMergedSegment (seg_start g3) (seg_end g3) (text r3)]) as Hlist.
  { cbn [listing]. rewrite T1, T3, S1, E1, S3, E3.
    destruct (text r1); [congruence|]. destruct (text r3); [congruence|].
    reflexivity. }
  split; [|split; [|split]].
  - rewrite Hfirst by now rewrite T1.
    cbn [labelled_blocks]. unfold block.
    rewrite !T1, !T3, S1, E1, S3, E3, app_nil_r.
    destruct (text r3); [congruence|]. now rewrite <- !app_assoc.
  - now rewrite Hl, Hlist.
  - unfold merge_transcription_results.
    now destruct (fold_left _ _ _).
  - rewrite Hl, Hlist. unfold detail_section, enumerate, detail_entry.
    cbn [length Nat.ltb Nat.leb seq combine List.map concat m_start m_end
         m_text].
    rewrite T1, T3, app_nil_r. reflexivity.
Qed.

Lemma missing_segment_merge_witness :
  fst (transcribe_audio_parallel sample_transcriber second_fails_env
         [segment_1; segment_2; segment_3] extracted_world)
  = [result_1; result_3].
Proof.
  apply (missing_segment_merge sample_transcriber second_fails_env
           extracted_world segment_1 segment_2 segment_3 result_1 result_3);
    reflexivity.
Defined.

(** C6 as claimed fails on the numbering: in the artifact of the
    90-minute recording whose second segment failed, the text of segment 3
    stands under the header of block 2 with the offsets 3600 s to 5400 s,
    the detailed section lists it as block 2, and no block 3 occurs. *)
Lemma missing_segment_renumbered :
  match process_audio_file_async 3 sample_transcriber second_fails_env
          sample_audio sample_world with
  | Some (true, w') =>
      let a := artifact w' sample_audio in
      occurs_inb (block_label 2 (inject_Z 3600) (inject_Z 5400) ++ [NL]
                  ++ lit "part 003.mp3") a = true
      /\ occurs_inb (lit "[" ++ [21312; 22602]%N ++ lit " 2] 60:00 - 90:00"
                     ++ [NL] ++ lit "part 003.mp3") a = true
      /\ occurs_inb ([21312; 22602]%N ++ lit " 3") a = false
  | _ => False
  end.
Proof. vm_compute. repeat split. Qed.

(** ** Effects of planning and extraction *)

Lemma is_file_insert (f : gmap Path node) (k q : Path) (bytes : list N) :
  is_file f q = true -> is_file (<[k := RegularFile bytes]> f) q = true.
Proof.
  unfold is_file. destruct (decide (k = q)) as [->|Hne].
  - now rewrite lookup_insert_eq.
  - now rewrite lookup_insert_ne.
Qed.

Lemma planned_insert (self : GeminiTranscriber) (audio_path : Path)
    (f : gmap Path node) (k : Path) (bytes : list N) (s : Segment) :
  planned self audio_path f s ->
  planned self audio_path (<[k := RegularFile bytes]> f) s.
Proof. intros [Hf Hs]. split; [now apply is_file_insert|exact Hs]. Qed.

Lemma create_segment_file_effects (self : GeminiTranscriber) (e : Env)
    (audio_path : Path) (start finish : Q) (w : World) :
  let r := _create_segment_file self e audio_path start finish w in
  extends_harmlessly w (snd r)
  /\ (fs (snd r) = fs w
      \/ exists bytes,
           fs (snd r)
           = <[segment_file self audio_path start := RegularFile bytes]>
               (fs w))
  /\ (fst r = None
      \/ exists bytes,
           fst r = Some (segment_file self audio_path start)
           /\ fs (snd r)
              = <[segment_file self audio_path start := RegularFile bytes]>
                  (fs w)).
Proof.
  unfold _create_segment_file.
  destruct (Qeq_bool (max_segment_duration self) 0).
  - split; [apply extends_harmlessly_refl|]. split; left; reflexivity.
  - cbv zeta.
    destruct (ffmpeg e audio_path start _ _) as [bytes|];
      [|destruct (ffmpeg_leftover e audio_path start _ _) as [bytes|]];
      cbn [fst snd]; (split; [now apply emit_harmless|]).
    + split; [right; now exists bytes|].
      right. exists bytes. split; reflexivity.
    + split; [right; now exists bytes|now left].
    + split; left; reflexivity.
Qed.

Lemma split_loop_effects (self : GeminiTranscriber) (e : Env)
    (audio_path : Path) (duration : Q) (fuel : nat) :
  forall current segments w segs w',
    split_loop fuel self e audio_path duration current segments w
    = Some (segs, w') ->
    Forall (planned self audio_path (fs w)) segments ->
    extends_harmlessly w w'
    /\ (forall q, (forall start, q <> segment_file self audio_path start) ->
                  fs w' !! q = fs w !! q)
    /\ Forall (planned self audio_path (fs w')) segs.
Proof.
  induction fuel as [|fuel IH]; intros current segments w segs w' Hrun Hacc.
  - simpl in Hrun. destruct (Qle_bool duration current); [|discriminate].
    injection Hrun as <- <-.
    split; [apply extends_harmlessly_refl|]. split; [reflexivity|exact Hacc].
  - cbn [split_loop] in Hrun.
    destruct (Qle_bool duration current).
    { injection Hrun as <- <-.
      split; [apply extends_harmlessly_refl|]. split; [reflexivity|exact Hacc]. }
    pose proof (create_segment_file_effects self e audio_path current
                  (Qmin (current + max_segment_duration self) duration) w)
      as (Hh & Hfs & Hres).
    destruct (_create_segment_file _ _ _ _ _ _) as [sp w1].
    cbn [fst snd] in Hh, Hfs, Hres.
    apply IH in Hrun.
    + destruct Hrun as (Hh' & Hfr & Hp).
      split; [eapply extends_harmlessly_trans; eassumption|].
      split; [|exact Hp].
      intros q Hq. rewrite Hfr by exact Hq.
      destruct Hfs as [->|(bytes & ->)]; [reflexivity|].
      apply lookup_insert_ne. intros E. now apply (Hq current).
    + assert (Forall (planned self audio_path (fs w1)) segments) as Hacc1.
      { destruct Hfs as [->|(bytes & ->)]; [exact Hacc|].
        eapply Forall_impl; [exact Hacc|]. intros s. apply planned_insert. }
      destruct Hres as [->|(bytes & -> & Hw1)]; [exact Hacc1|].
      apply Forall_app. split; [exact Hacc1|].
      constructor; [|constructor]. split; cbn [seg_path].
      * unfold is_file. now rewrite Hw1, lookup_insert_eq.
      * now exists current.
Qed.

(** The planner probes and extracts: it never writes an artifact or
    unlinks a file, it only touches the paths of segment files, and every
    segment it returns is the original or an extracted regular file. *)
Lemma split_audio_file_effects (self : GeminiTranscriber) (e : Env)
    (audio_path : Path) (fuel : nat) (w : World) (segs : list Segment)
    (w' : World) :
  split_audio_file fuel self e audio_path w = Some (segs, w') ->
  extends_harmlessly w w'
  /\ (forall q, (forall start, q <> segment_file self audio_path start) ->
                fs w' !! q = fs w !! q)
  /\ Forall (fun s => seg_path s = audio_path
                      \/ planned self audio_path (fs w') s) segs.
Proof.
  unfold split_audio_file.
  pose proof (get_audio_duration_world e audio_path w) as Hw.
  destruct (get_audio_duration e audio_path w) as [d w1].
  cbn [snd] in Hw. subst w1.
  destruct (Qle_bool d (max_segment_duration self)).
  - intros [= <- <-]. split; [now apply emit_harmless|].
    split; [reflexivity|]. constructor; [now left|constructor].
  - intros Hrun. apply split_loop_effects in Hrun; [|constructor].
    destruct Hrun as (Hh & Hfs & Hp).
    split; [eapply extends_harmlessly_trans; [|exact Hh];
            now apply emit_harmless|].
    split; [exact Hfs|].
    eapply Forall_impl; [exact Hp|]. intros s Hs. now right.
Qed.


(** ** Cleanup *)

Lemma unlink_effects (e : Env) (p : Path) (w : World) :
  log (unlink e p w) = log w ++ [EvUnlink p]
  /\ (forall q, q <> p -> fs (unlink e p w) !! q = fs w !! q)
  /\ (fs (unlink e p w) !! p = fs w !! p \/ fs (unlink e p w) !! p = None)
  /\ (is_file (fs w) p = true -> unlink_ok e p = true ->
      fs (unlink e p w) !! p = None).
Proof.
  unfold unlink. cbn [emit fs].
  destruct (is_file (fs w) p && unlink_ok e p) eqn:B; cbn [set_fs fs log emit].
  - split; [reflexivity|]. split; [|split].
    + intros q Hq. now apply lookup_delete_ne.
    + right. apply lookup_delete_eq.
    + intros _ _. apply lookup_delete_eq.
  - split; [reflexivity|]. split; [reflexivity|]. split; [now left|].
    intros H1 H2. rewrite H1, H2 in B. discriminate.
Qed.

Lemma cleanup_segments_effects (e : Env) (original : Path)
    (segments : list Segment) :
  forall w,
    let w' := cleanup_segments e segments original w in
    (exists evs, log w' = log w ++ evs /\ Forall (unlinks_other original) evs)
    /\ (forall q, fs w' !! q = fs w !! q
                  \/ (fs w' !! q = None /\ q <> original
                      /\ q ∈ List.map seg_path segments))
    /\ (forall s, s ∈ segments -> seg_path s <> original ->
                  is_file (fs w) (seg_path s) = true ->
                  unlink_ok e (seg_path s) = true ->
                  fs w' !! seg_path s = None).
Proof.
  induction segments as [|s rest IH]; intros w; cbn [cleanup_segments].
  - split; [exists []; split; [now rewrite app_nil_r|constructor]|].
    split; [now left|]. intros s Hs. inversion Hs.
  - set (w1 := if bool_decide (seg_path s <> original)
                  && exists_path (fs w) (seg_path s)
               then unlink e (seg_path s) w else w).
    assert (Hstep :
      (exists evs, log w1 = log w ++ evs /\ Forall (unlinks_other original) evs)
      /\ (forall q, q <> seg_path s -> fs w1 !! q = fs w !! q)
      /\ (fs w1 !! seg_path s = fs w !! seg_path s
          \/ (fs w1 !! seg_path s = None /\ seg_path s <> original))
      /\ (seg_path s <> original -> is_file (fs w) (seg_path s) = true ->
          unlink_ok e (seg_path s) = true -> fs w1 !! seg_path s = None)).
    { subst w1.
      destruct (bool_decide (seg_path s <> original)
                && exists_path (fs w) (seg_path s)) eqn:B.
      - apply andb_true_iff in B as [B1 _]. apply bool_decide_eq_true in B1.
        destruct (unlink_effects e (seg_path s) w) as (L & F1 & F2 & F3).
        split; [exists [EvUnlink (seg_path s)]; split; [exact L|]|].
        { constructor; [|constructor]. now exists (seg_path s). }
        split; [exact F1|]. split; [|auto].
        destruct F2 as [F2|F2]; [now left|now right].
      - split; [exists []; split; [now rewrite app_nil_r|constructor]|].
        split; [reflexivity|]. split; [now left|].
        intros H1 H2 _. exfalso.
        rewrite (bool_decide_eq_true_2 _ H1) in B. cbn [andb] in B.
        unfold is_file in H2. unfold exists_path in B.
        destruct (fs w !! seg_path s); discriminate. }
    destruct Hstep as ((evs1 & L1 & E1) & F1 & F2 & F3).
    destruct (IH w1) as ((evs2 & L2 & E2) & G1 & G2).
    split; [|split].
    + exists (evs1 ++ evs2).
      split; [now rewrite L2, L1, app_assoc|now apply Forall_app].
    + intros q. cbn [List.map].
      destruct (G1 q) as [->|(-> & Hq & Hin)].
      * destruct (decide (q = seg_path s)) as [->|Hne].
        -- destruct F2 as [->|[-> Hs]]; [now left|].
           right. split; [reflexivity|]. split; [exact Hs|]. now left.
        -- left. now apply F1.
      * right. split; [reflexivity|]. split; [exact Hq|]. now right.
    + intros s' Hs' Hne Hfile Hok.
      assert (fs w1 !! seg_path s' = None
              \/ is_file (fs w1) (seg_path s') = true) as [Hnone|Hstill].
      { destruct (decide (seg_path s' = seg_path s)) as [Heq|Hd].
        - left. rewrite Heq in *. now apply F3.
        - right. unfold is_file. rewrite F1 by exact Hd. exact Hfile. }
      * destruct (G1 (seg_path s')) as [->|[-> _]]; [exact Hnone|reflexivity].
      * apply list_elem_of_In in Hs'. destruct Hs' as [<-|Hin].
        -- specialize (F3 Hne Hfile Hok).
           destruct (G1 (seg_path s)) as [->|[-> _]]; [exact F3|reflexivity].
        -- apply G2; [now apply list_elem_of_In|assumption..].
Qed.

(** ** Per-file orchestration *)

Lemma unlink_not_harmless (w w' : World) (q : Path) :
  extends_harmlessly w w' -> EvUnlink q ∈ log w' -> EvUnlink q ∈ log w.
Proof.
  intros (evs & -> & Hh) Hin. apply elem_of_app in Hin as [Hin|Hin];
    [exact Hin|].
  rewrite Forall_forall in Hh. now apply Hh in Hin.
Qed.


(** Under the default configuration an inventory candidate is never named
    like a transcript. *)
Lemma candidate_suffix_not_txt (root : list pystr) (f : gmap Path node)
    (p : Path) :
  In p (find_audio_files (default_transcriber root) f) ->
  suffix p <> lit ".txt".
Proof.
  intros Hin E. apply find_audio_files_spec in Hin as [_ Hc].
  unfold is_audio_candidate in Hc. rewrite E in Hc.
  apply andb_true_iff in Hc as [Hc _]. apply andb_true_iff in Hc as [_ Hc].
  vm_compute in Hc. discriminate.
Qed.



Lemma save_transcript_effects (self : GeminiTranscriber) (e : Env)
    (audio_path : Path) (result : MergedTranscript) (w : World) :
  let tp := get_transcript_path audio_path in
  let r := save_transcript self e audio_path result w in
  log (snd r) = log w ++ [EvWrite tp]
  /\ (forall q, q <> tp -> fs (snd r) !! q = fs w !! q)
  /\ match write_text e tp with
     | WriteOk =>
         fst r = true
         /\ fs (snd r) !! tp
            = Some (RegularFile (transcript_content self e audio_path result))
     | WriteFails => fst r = false /\ fs (snd r) !! tp = Some (RegularFile [])
     | OpenFails => fst r = false /\ fs (snd r) = fs w
     end.
Proof.
  unfold save_transcript.
  destruct (write_text e (get_transcript_path audio_path));
    cbn [fst snd set_fs emit fs log].
  - repeat split; reflexivity.
  - split; [reflexivity|]. split; [|split; [reflexivity|]].
    + intros q Hq. now apply lookup_insert_ne.
    + apply lookup_insert_eq.
  - split; [reflexivity|]. split; [|split; [reflexivity|]].
    + intros q Hq. now apply lookup_insert_ne.
    + apply lookup_insert_eq.
Qed.

(** C8, as the orchestration has it. For a file that needs transcription
    and whose batch produced results, the orchestration returns; the
    original is never unlinked and stays as it was. If the write succeeds,
    the artifact exists and every segment file other than the original
    whose unlink does not fail is gone. If the write fails, nothing is
    unlinked and every segment file stays; no artifact exists when opening
    it failed, while a failure after opening leaves the created file
    behind. *)
Theorem write_then_cleanup (fuel : nat) (self : GeminiTranscriber) (e : Env)
    (audio_path : Path) (w w1 w2 : World) (segs : list Segment)
    (results : list TranscriptionResult) :
  needs_transcription (fs w) audio_path = true ->
  suffix audio_path <> lit ".txt" ->
  split_audio_file fuel self e audio_path w = Some (segs, w1) ->
  segs <> [] ->
  transcribe_audio_parallel self e segs w1 = (results, w2) ->
  results <> [] ->
  let tp := get_transcript_path audio_path in
  exists b w',
    process_audio_file_async fuel self e audio_path w = Some (b, w')
    /\ (EvUnlink audio_path ∈ log w' -> EvUnlink audio_path ∈ log w)
    /\ fs w' !! audio_path = fs w2 !! audio_path
    /\ match write_text e tp with
       | WriteOk =>
           b = true
           /\ is_file (fs w') tp = true
           /\ forall s, s ∈ segs -> seg_path s <> audio_path ->
                        unlink_ok e (seg_path s) = true ->
                        fs w' !! seg_path s = None
       | OpenFails =>
           b = false
           /\ (forall q, EvUnlink q ∈ log w' -> EvUnlink q ∈ log w)
           /\ (forall s, s ∈ segs -> fs w' !! seg_path s = fs w2 !! seg_path s)
           /\ fs w' !! tp = None
       | WriteFails =>
           b = false
           /\ (forall q, EvUnlink q ∈ log w' -> EvUnlink q ∈ log w)
           /\ (forall s, s ∈ segs -> fs w' !! seg_path s = fs w2 !! seg_path s)
           /\ is_file (fs w') tp = true
       end.
Proof.
  intros Hneeds Hsfx Es Hsegs Et Hres tp.
  destruct (split_audio_file_effects _ _ _ _ _ _ _ Es) as (Hh1 & Hfs1 & Hpl).
  destruct (transcribe_audio_parallel_effects self e segs w1) as (_ & Hf2 & Hh2).
  rewrite Et in Hf2, Hh2. cbn [snd] in Hf2, Hh2.
  assert (extends_harmlessly w w2) as Hh
      by (eapply extends_harmlessly_trans; eassumption).
  assert (tp <> audio_path) as Htp by now apply transcript_path_fresh.
  assert (Hseg_tp : forall s, s ∈ segs -> seg_path s <> tp).
  { intros s Hs. rewrite Forall_forall in Hpl.
    destruct (Hpl s Hs) as [->|[_ [start ->]]]; [congruence|].
    now apply segment_file_not_transcript. }
  assert (fs w2 !! tp = None) as Hfresh.
  { rewrite Hf2, Hfs1.
    - now apply needs_transcription_iff.
    - intros start E. symmetry in E.
      now apply segment_file_not_transcript in E. }
  set (merged := merge_transcription_results e results).
  pose proof (save_transcript_effects self e audio_path merged w2)
    as (Hl3 & Hf3 & Hw3).
  fold tp in Hl3, Hf3, Hw3.
  assert (Hproc : process_audio_file_async fuel self e audio_path w
    = match save_transcript self e audio_path merged w2 with
      | (true, w3) => Some (true, cleanup_segments e segs audio_path w3)
      | (false, w3) => Some (false, w3)
      end).
  { unfold process_audio_file_async. rewrite Hneeds, Es. cbn [negb].
    destruct segs; [congruence|]. rewrite Et.
    destruct results; [congruence|]. reflexivity. }
  rewrite Hproc. clear Hproc.
  destruct (save_transcript self e audio_path merged w2) as [saved w3].
  cbn [fst snd] in Hl3, Hf3, Hw3.
  assert (Hunl3 : forall q, EvUnlink q ∈ log w3 -> EvUnlink q ∈ log w).
  { intros q Hin. rewrite Hl3 in Hin.
    apply elem_of_app in Hin as [Hin|Hin].
    - now apply (unlink_not_harmless w w2).
    - apply list_elem_of_In in Hin. destruct Hin as [Hin|[]]. discriminate. }
  destruct (write_text e tp).
  - destruct Hw3 as [-> Hfs3]. exists false, w3.
    split; [reflexivity|]. split; [apply Hunl3|].
    split; [now rewrite Hfs3|]. split; [reflexivity|].
    split; [exact Hunl3|]. split; [intros s _; now rewrite Hfs3|].
    now rewrite Hfs3.
  - destruct Hw3 as [-> Hfs3]. exists false, w3.
    split; [reflexivity|]. split; [apply Hunl3|].
    split; [now apply Hf3|]. split; [reflexivity|].
    split; [exact Hunl3|]. split.
    + intros s Hs. apply Hf3. now apply Hseg_tp.
    + unfold is_file. now rewrite Hfs3.
  - destruct Hw3 as [-> Hfs3].
    destruct (cleanup_segments_effects e audio_path segs w3)
      as ((evs & Hl4 & Hev) & Hc1 & Hc2).
    exists true, (cleanup_segments e segs audio_path w3).
    split; [reflexivity|]. split; [|split; [|split; [reflexivity|split]]].
    + intros Hin. rewrite Hl4 in Hin.
      apply elem_of_app in Hin as [Hin|Hin]; [now apply Hunl3|].
      rewrite Forall_forall in Hev. apply Hev in Hin as (q & [= <-] & Hq).
      congruence.
    + destruct (Hc1 audio_path) as [->|(_ & Hq & _)]; [|congruence].
      now apply Hf3.
    + unfold is_file.
      destruct (Hc1 tp) as [->|(_ & _ & Hin)]; [now rewrite Hfs3|].
      exfalso. apply list_elem_of_In, in_map_iff in Hin as (s & Hs & Hin).
      apply list_elem_of_In in Hin. now apply (Hseg_tp s Hin).
    + intros s Hs Hne Hok. apply Hc2; [exact Hs|exact Hne| |exact Hok].
      rewrite Forall_forall in Hpl.
      destruct (Hpl s Hs) as [?|[Hfile _]]; [congruence|].
      unfold is_file. rewrite Hf3 by now apply Hseg_tp.
      rewrite Hf2. exact Hfile.
Qed.

Lemma write_then_cleanup_witness :
  exists b w',
    process_audio_file_async 2 sample_transcriber sample_env sample_audio
                             sample_world = Some (b, w')
    /\ fs w' !! sample_audio
       = fs (snd (transcribe_audio_parallel sample_transcriber sample_env
                    sample_segments
                    (snd (default ([], sample_world)
                            (split_audio_file 2 sample_transcriber sample_env
                               sample_audio sample_world)))))
         !! sample_audio.
Proof.
  destruct (write_then_cleanup 2 sample_transcriber sample_env sample_audio
              sample_world
              (snd (default ([], sample_world)
                      (split_audio_file 2 sample_transcriber sample_env
                         sample_audio sample_world)))
              (snd (transcribe_audio_parallel sample_transcriber sample_env
                      sample_segments
                      (snd (default ([], sample_world)
                              (split_audio_file 2 sample_transcriber
                                 sample_env sample_audio sample_world)))))
              sample_segments
              (fst (transcribe_audio_parallel sample_transcriber sample_env
                      sample_segments
                      (snd (default ([], sample_world)
                              (split_audio_file 2 sample_transcriber
                                 sample_env sample_audio sample_world))))))
    as (b & w' & Hp & _ & Hf & _).
  - vm_compute. reflexivity.
  - vm_compute. discriminate.
  - vm_compute. reflexivity.
  - discriminate.
  - now destruct (transcribe_audio_parallel _ _ _ _).
  - vm_compute. discriminate.
  - exists b, w'. split; [exact Hp|exact Hf].
Defined.

(** C8 as claimed fails in both halves: after a successful write a segment
    file whose unlink failed is still there, and after a write that failed
    once the file was open the artifact exists. *)
Lemma write_then_cleanup_counterexample :
  match process_audio_file_async 2 sample_transcriber sticky_env sample_audio
          sample_world with
  | Some (true, w') =>
      write_text sticky_env (get_transcript_path sample_audio) = WriteOk
      /\ is_file (fs w') (mkPath sample_root (lit "001.mp3")) = true
  | _ => False
  end
  /\ match process_audio_file_async 2 sample_transcriber disk_full_env
             sample_audio sample_world with
     | Some (false, w') =>
         write_text disk_full_env (get_transcript_path sample_audio)
         = WriteFails
         /\ exists_path (fs w') (get_transcript_path sample_audio) = true
         /\ needs_transcription (fs w') sample_audio = false
     | _ => False
     end.
Proof. vm_compute. repeat split. Qed.

(** ** Dispatch of the batch *)













(** * Further properties *)

(** ** Inventory, artifacts and MIME types *)

Lemma stem_suffix_split (nm : pystr) :
  take (length nm - length (suffix_of nm)) nm
  = match rfind DOT nm with
    | Some i =>
        if ((0 <? i) && (i <? length nm - 1))%nat then take i nm else nm
    | None => nm
    end.
Proof.
  unfold suffix_of. destruct (rfind DOT nm) as [i|] eqn:E.
  - destruct ((0 <? i)%nat && (i <? length nm - 1)%nat) eqn:B.
    + apply andb_true_iff in B as [_ B]. apply Nat.ltb_lt in B.
      rewrite length_drop. f_equal. lia.
    + simpl. rewrite Nat.sub_0_r. apply firstn_all.
  - simpl. rewrite Nat.sub_0_r. apply firstn_all.
Qed.

Lemma transcript_path_stem (p : Path) :
  get_transcript_path p = mkPath (parent p) (stem p ++ lit ".txt").
Proof.
  unfold get_transcript_path, with_suffix, suffix, stem.
  now rewrite stem_suffix_split.
Qed.

(** X2. The artifact of an audio file is named by its directory and stem
    alone: two files of one directory whose names differ only in the
    extension share one artifact path, so once the transcript of one has
    been written the other no longer needs transcription. *)
Theorem transcript_shared_by_stem (self : GeminiTranscriber) (e : Env)
    (p q : Path) (result : MergedTranscript) (w : World) :
  parent p = parent q ->
  stem p = stem q ->
  write_text e (get_transcript_path p) = WriteOk ->
  get_transcript_path p = get_transcript_path q
  /\ needs_transcription (fs (snd (save_transcript self e p result w))) q
     = false.
Proof.
  intros Hp Hs Hw.
  assert (get_transcript_path p = get_transcript_path q) as Heq
      by (rewrite !transcript_path_stem; congruence).
  split; [exact Heq|].
  destruct (save_transcript_effects self e p result w) as (_ & _ & Hfs).
  rewrite Hw in Hfs. destruct Hfs as [_ Hfs].
  unfold needs_transcription, exists_path. now rewrite <- Heq, Hfs.
Qed.

Lemma transcript_shared_by_stem_witness :
  needs_transcription
    (fs (snd (save_transcript sample_transcriber sample_env sample_audio
                (merge_transcription_results sample_env [first_half])
                sample_world)))
    sample_sibling = false.
Proof.
  refine (proj2 (transcript_shared_by_stem sample_transcriber sample_env
                   sample_audio sample_sibling _ sample_world _ _ _));
    reflexivity.
Defined.

Lemma suffix_of_txt (x : pystr) :
  x <> [] -> suffix_of (x ++ lit ".txt") = lit ".txt".
Proof.
  intros Hx. destruct lit_txt_shape as (r & Hr & Hrn & Hrd).
  unfold suffix_of. rewrite Hr, rfind_last by exact Hrd.
  assert (0 < length x)%nat by (destruct x; [congruence|simpl; lia]).
  assert (0 < length r)%nat by (destruct r; [congruence|simpl; lia]).
  rewrite length_app. cbn [length].
  assert ((0 <? length x)%nat = true) as -> by now apply Nat.ltb_lt.
  assert ((length x <? length x + S (length r) - 1)%nat = true) as ->
      by (apply Nat.ltb_lt; lia).
  cbn [andb]. now rewrite drop_app_length.
Qed.

Lemma transcript_never_candidate (root : list pystr) (f : gmap Path node)
    (p : Path) :
  is_audio_candidate (default_transcriber root) f (get_transcript_path p)
  = false.
Proof.
  rewrite transcript_path_stem. unfold is_audio_candidate. cbn [name].
  destruct (stem p) as [|c x] eqn:E.
  - cbn [app]. replace (startswith_dot (lit ".txt")) with true by reflexivity.
    now rewrite andb_false_r.
  - unfold suffix. cbn [name]. rewrite suffix_of_txt by discriminate.
    replace (bool_decide (lower (lit ".txt")
                          ∈ audio_extensions (default_transcriber root)))
      with false by (vm_compute; reflexivity).
    now rewrite andb_false_r.
Qed.

(** X3. Under the default configuration a transcript artifact is never
    listed as an audio file, whatever the audio file it belongs to, and
    writing the artifact of one file leaves the inventory as it was. *)
Theorem transcripts_stay_out_of_inventory (root : list pystr) (e : Env)
    (p : Path) (result : MergedTranscript) (w : World) :
  let self := default_transcriber root in
  (forall f, ~ In (get_transcript_path p) (find_audio_files self f))
  /\ forall q,
       In q (find_audio_files self
               (fs (snd (save_transcript self e p result w))))
       <-> In q (find_audio_files self (fs w)).
Proof.
  intros self. split.
  - intros f Hin. apply find_audio_files_spec in Hin as [_ Hc].
    unfold self in Hc. now rewrite transcript_never_candidate in Hc.
  - intros q. rewrite !find_audio_files_spec.
    destruct (decide (q = get_transcript_path p)) as [->|Hne].
    + unfold self. rewrite !transcript_never_candidate.
      split; intros [_ H]; discriminate H.
    + destruct (save_transcript_effects self e p result w) as (_ & Hfs & _).
      unfold is_audio_candidate, is_file. now rewrite Hfs.
Qed.

(** X4. Every audio file the inventory returns under the default
    configuration has its lowered extension among the keys of the MIME
    table, so the fallback type is never used for it; and a segment file
    is sent with the MIME type of the file it was cut from. *)
Theorem mime_type_of_candidate (root : list pystr) (f : gmap Path node)
    (p : Path) :
  In p (find_audio_files (default_transcriber root) f) ->
  mime_types !! lower (suffix p) = Some (_get_mime_type p)
  /\ forall self start,
       _get_mime_type (segment_file self p start) = _get_mime_type p.
Proof.
  intros Hin. split.
  - apply find_audio_files_spec in Hin as [_ Hc].
    unfold is_audio_candidate in Hc.
    apply andb_true_iff in Hc as [Hc _]. apply andb_true_iff in Hc as [_ Hc].
    apply bool_decide_eq_true in Hc. unfold _get_mime_type.
    apply list_elem_of_In in Hc. simpl in Hc.
    repeat (destruct Hc as [<-|Hc]; [vm_compute; reflexivity|]).
    destruct Hc.
  - intros self start. unfold _get_mime_type.
    now rewrite segment_file_suffix.
Qed.

Lemma mime_type_of_candidate_witness :
  mime_types !! lower (suffix sample_audio) = Some (lit "audio/mpeg").
Proof.
  refine (proj1 (mime_type_of_candidate sample_root (fs sample_world)
                   sample_audio _)).
  vm_compute. left. reflexivity.
Defined.

Lemma existing_transcripts_length (f : gmap Path node) (l : list Path) :
  (length (existing_transcripts f l)
   + length (List.filter (needs_transcription f) l) = length l)%nat.
Proof.
  induction l as [|p l IH]; simpl; [reflexivity|].
  unfold needs_transcription at 1.
  destruct (exists_path f (get_transcript_path p)); simpl; lia.
Qed.

(** X5. In the status report the pending count is the number of listed
    audio files that need transcription, and the transcribed and pending
    counts add up to the total. *)
Theorem status_counts (self : GeminiTranscriber) (f : gmap Path node) :
  let st := get_status_info self f in
  pending_files st
  = length (List.filter (needs_transcription f) (find_audio_files self f))
  /\ (transcribed_files st + pending_files st = total_audio_files st)%nat.
Proof.
  cbn [get_status_info pending_files transcribed_files total_audio_files].
  pose proof (existing_transcripts_length f (find_audio_files self f)).
  split; lia.
Qed.

(** ** Retry wrapper, worker and batch *)

Lemma retry_loop_failed (self : GeminiTranscriber) (e : Env) (seg : Path)
    (failed rest : list nat) :
  sleeps_accepted self ->
  forall w,
    Forall (attempt_fails e seg) failed ->
    retry_loop self e seg (failed ++ rest) w
    = retry_loop self e seg rest
        (mkWorld (fs w) (log w ++ failed_attempts self e seg failed)).
Proof.
  intros Hd. induction failed as [|a failed IH]; intros [f l] Hf.
  - cbn [app failed_attempts flat_map fs log]. now rewrite app_nil_r.
  - apply Forall_cons in Hf as [Ha Hf]. cbn [app retry_loop].
    unfold attempt_fails in Ha. unfold failed_attempts, pause in *.
    cbn [flat_map]. fold (failed_attempts self e seg failed).
    destruct (generate_content_stream e seg a) as [|chunks].
    + destruct (a <? max_retries self - 1)%nat eqn:Ea.
      * apply Nat.ltb_lt in Ea. destruct Hd as [Hd0 Hd1].
        assert (sleep_raises (retry_delay self * (Z.of_nat a + 1)) = false)
          as ->.
        { unfold sleep_raises. apply orb_false_iff.
          split; [apply Z.ltb_ge|apply Z.ltb_ge]; nia. }
        rewrite IH by exact Hf.
        cbn [emit fs log app]. now rewrite <- !app_assoc.
      * rewrite IH by exact Hf.
        cbn [emit fs log app]. now rewrite <- !app_assoc.
    + rewrite Ha, IH by exact Hf.
      cbn [emit fs log app]. now rewrite <- !app_assoc.
Qed.

Lemma count_calls_app (l1 l2 : list event) :
  count_calls (l1 ++ l2) = (count_calls l1 + count_calls l2)%nat.
Proof.
  induction l1 as [|ev l1 IH]; [reflexivity|].
  destruct ev; simpl; rewrite ?IH; reflexivity.
Qed.

Lemma total_sleep_app (l1 l2 : list event) :
  total_sleep (l1 ++ l2) = total_sleep l1 + total_sleep l2.
Proof.
  induction l1 as [|ev l1 IH]; [reflexivity|].
  destruct ev; simpl; rewrite ?IH; lia.
Qed.

Lemma count_calls_failed (self : GeminiTranscriber) (e : Env) (seg : Path)
    (attempts : list nat) :
  count_calls (failed_attempts self e seg attempts) = length attempts.
Proof.
  induction attempts as [|a l IH]; [reflexivity|].
  unfold failed_attempts in *. cbn [flat_map app count_calls length].
  rewrite count_calls_app, IH. unfold pause.
  destruct (generate_content_stream e seg a); [|reflexivity].
  now destruct (a <? max_retries self - 1)%nat.
Qed.

Lemma seq_split_at (k n : nat) :
  (k < n)%nat -> seq 0 n = seq 0 k ++ k :: seq (S k) (n - S k).
Proof.
  intros H. replace n with (k + S (n - S k))%nat at 1 by lia.
  now rewrite seq_app.
Qed.

(** X6. With any limit and any base delay whose pauses [time.sleep]
    accepts: when the attempts before number [k] fail and attempt [k],
    within the limit, delivers text, the wrapper returns that text
    stripped, after exactly [k + 1] calls; it pauses only after the
    exceptions among the failed attempts and makes no further call. *)
Theorem retry_first_success (self : GeminiTranscriber) (e : Env) (seg : Path)
    (w : World) (k : nat) (chunks : list (option pystr)) :
  sleeps_accepted self ->
  (k < max_retries self)%nat ->
  (forall a, (a < k)%nat -> attempt_fails e seg a) ->
  generate_content_stream e seg k = StreamChunks chunks ->
  strip (accumulate chunks) <> [] ->
  let evs := failed_attempts self e seg (seq 0 k) ++ [EvApiCall seg k] in
  _call_gemini_api_with_retry self e seg w
  = (Some (strip (accumulate chunks)), mkWorld (fs w) (log w ++ evs))
  /\ count_calls evs = S k.
Proof.
  intros Hd Hk Hfail Hs Hne evs. split.
  - unfold _call_gemini_api_with_retry.
    rewrite (seq_split_at k _ Hk), retry_loop_failed; [|exact Hd|].
    + cbn [retry_loop]. rewrite Hs.
      destruct (strip (accumulate chunks)) as [|c t]; [congruence|].
      cbn [emit fs log]. subst evs. now rewrite app_assoc.
    + apply Forall_forall. intros a Ha. apply Hfail.
      apply list_elem_of_In, in_seq in Ha. lia.
  - subst evs. rewrite count_calls_app, count_calls_failed, length_seq.
    simpl. lia.
Qed.

Lemma retry_first_success_witness :
  _call_gemini_api_with_retry sample_transcriber flaky_env sample_audio
    sample_world
  = (Some (lit "hello"),
     mkWorld (fs sample_world)
             [EvApiCall sample_audio 0; EvSleep 2; EvApiCall sample_audio 1]).
Proof.
  refine (proj1 (retry_first_success sample_transcriber flaky_env sample_audio
                   sample_world 1 [Some (lit " hello "); None] _ _ _ _ _)).
  - split; vm_compute; discriminate.
  - vm_compute. lia.
  - intros a Ha. assert (a = 0%nat) as -> by lia. exact I.
  - reflexivity.
  - vm_compute. discriminate.
Defined.

Lemma sleep_of_failed_le (self : GeminiTranscriber) (e : Env) (seg : Path)
    (m : nat) :
  let n := Z.of_nat (max_retries self) in
  0 <= retry_delay self ->
  forall i : nat,
    (i + m = max_retries self)%nat -> (1 <= m)%nat ->
    2 * total_sleep (failed_attempts self e seg (seq i m))
    <= retry_delay self * ((n - 1) * n - Z.of_nat i * (Z.of_nat i + 1)).
Proof.
  intros n Hd. induction m as [|m IH]; intros i Hi Hm; [lia|].
  cbn [seq]. unfold failed_attempts in *. cbn [flat_map app total_sleep].
  rewrite total_sleep_app.
  assert (total_sleep (pause self e seg i)
          <= if (i <? max_retries self - 1)%nat
             then retry_delay self * (Z.of_nat i + 1) else 0) as Hp.
  { unfold pause. destruct (generate_content_stream e seg i).
    - destruct (i <? max_retries self - 1)%nat; simpl; lia.
    - simpl. destruct (i <? max_retries self - 1)%nat; nia. }
  destruct m as [|m].
  - assert ((i <? max_retries self - 1)%nat = false) as E
        by (apply Nat.ltb_ge; lia).
    rewrite E in Hp. cbn [seq flat_map total_sleep]. subst n. nia.
  - assert ((i <? max_retries self - 1)%nat = true) as E
        by (apply Nat.ltb_lt; lia).
    rewrite E in Hp. specialize (IH (S i) ltac:(lia) ltac:(lia)).
    subst n. nia.
Qed.

Lemma sleep_of_failed_raises (self : GeminiTranscriber) (e : Env) (seg : Path)
    (m : nat) :
  let n := Z.of_nat (max_retries self) in
  always_raises e seg ->
  forall i : nat,
    (i + m = max_retries self)%nat -> (1 <= m)%nat ->
    2 * total_sleep (failed_attempts self e seg (seq i m))
    = retry_delay self * ((n - 1) * n - Z.of_nat i * (Z.of_nat i + 1)).
Proof.
  intros n Hr. induction m as [|m IH]; intros i Hi Hm; [lia|].
  cbn [seq]. unfold failed_attempts in *. cbn [flat_map app total_sleep].
  rewrite total_sleep_app. unfold pause at 1. rewrite Hr.
  destruct m as [|m].
  - assert ((i <? max_retries self - 1)%nat = false) as ->
        by (apply Nat.ltb_ge; lia).
    cbn [seq flat_map total_sleep]. subst n. nia.
  - assert ((i <? max_retries self - 1)%nat = true) as ->
        by (apply Nat.ltb_lt; lia).
    specialize (IH (S i) ltac:(lia) ltac:(lia)).
    cbn [total_sleep]. subst n. nia.
Qed.

(** X7. With any limit [n = max_retries] and any base delay [b] whose
    pauses [time.sleep] accepts: when each of the [n] attempts fails, the
    wrapper returns [None] after exactly [n] calls and leaves the file
    system alone; it has slept at most [b * n * (n - 1) / 2] seconds, and
    exactly that long when every attempt raised. *)
Theorem retry_exhausted_cost (self : GeminiTranscriber) (e : Env) (seg : Path)
    (w : World) :
  sleeps_accepted self ->
  (forall a, (a < max_retries self)%nat -> attempt_fails e seg a) ->
  let n := Z.of_nat (max_retries self) in
  let evs := failed_attempts self e seg (seq 0 (max_retries self)) in
  _call_gemini_api_with_retry self e seg w
  = (None, mkWorld (fs w) (log w ++ evs))
  /\ count_calls evs = max_retries self
  /\ 2 * total_sleep evs <= retry_delay self * (n * (n - 1))
  /\ (always_raises e seg ->
      2 * total_sleep evs = retry_delay self * (n * (n - 1))).
Proof.
  intros Hd Hfail n evs. split; [|split; [|split]].
  - unfold _call_gemini_api_with_retry.
    rewrite <- (app_nil_r (seq 0 (max_retries self))), retry_loop_failed;
      [|exact Hd|].
    + reflexivity.
    + apply Forall_forall. intros a Ha. apply Hfail.
      apply list_elem_of_In, in_seq in Ha. lia.
  - subst evs. now rewrite count_calls_failed, length_seq.
  - subst evs n. destruct (max_retries self) as [|m] eqn:E.
    + simpl. lia.
    + pose proof (sleep_of_failed_le self e seg (S m) (proj1 Hd) 0) as H.
      rewrite E in H. specialize (H eq_refl ltac:(lia)). lia.
  - intros Hr. subst evs n. destruct (max_retries self) as [|m] eqn:E.
    + simpl. lia.
    + pose proof (sleep_of_failed_raises self e seg (S m) Hr 0) as H.
      rewrite E in H. specialize (H eq_refl ltac:(lia)). lia.
Qed.

Lemma retry_exhausted_cost_witness :
  2 * total_sleep (failed_attempts sample_transcriber down_env sample_audio
                     (seq 0 3)) = 2 * (3 * 2).
Proof.
  refine (proj2 (proj2 (proj2 (retry_exhausted_cost sample_transcriber
                                 down_env sample_audio sample_world _ _))) _).
  - split; vm_compute; discriminate.
  - intros a _. exact I.
  - intros a. reflexivity.
Defined.

(** X8. The worker never calls the service for a segment file that is
    missing, not a regular file or empty: it returns no result after the
    read alone. A result it does return carries a non-empty, stripped
    text, the offsets and path of its segment, and stems from a non-empty
    regular file. *)
Theorem worker_guards (self : GeminiTranscriber) (e : Env) (g : Segment)
    (w : World) :
  ((forall b bytes, fs w !! seg_path g <> Some (RegularFile (b :: bytes))) ->
   transcribe_segment_async self e g w
   = (None, emit (EvRead (seg_path g)) w))
  /\ (forall r,
        fst (transcribe_segment_async self e g w) = Some r ->
        text r <> [] /\ strip (text r) = text r
        /\ start_time r = seg_start g /\ end_time r = seg_end g
        /\ segment_path r = seg_path g
        /\ exists b bytes, fs w !! seg_path g = Some (RegularFile (b :: bytes))).
Proof.
  split.
  - intros Hno. unfold transcribe_segment_async, encode_audio_to_base64.
    cbn [emit fs].
    destruct (fs w !! seg_path g) as [[|[|b bytes]]|] eqn:E; try reflexivity.
    now destruct (Hno b bytes).
  - intros r Hr.
    destruct (transcribe_segment_async_effects self e g w) as (R & _ & _).
    rewrite R in Hr.
    destruct (worker_result_some _ _ _ _ _ Hr) as (S1 & E1 & P1 & N1 & T1).
    repeat split; try assumption.
    unfold worker_result, transcribe_segment_async, encode_audio_to_base64
      in Hr. cbn [emit fs] in Hr.
    destruct (fs w !! seg_path g) as [[|[|b bytes]]|]; try discriminate.
    now exists b, bytes.
Qed.

Lemma omap_length_le {A B} (f : A -> option B) (l : list A) :
  (length (omap f l) <= length l)%nat.
Proof.
  induction l as [|x l IH]; [reflexivity|].
  cbn [omap list_omap]. destruct (f x); simpl; lia.
Qed.

(** X9. Whatever the order in which the tasks complete, the batch returns
    the results of the workers that succeeded, each once, sorted by
    ascending start offset; it returns at most one result per segment and
    leaves the file system as it found it. *)
Theorem batch_results_sorted (self : GeminiTranscriber) (e : Env)
    (segs : list Segment) (w : World) :
  completion_order e segs ≡ₚ segs ->
  let r := transcribe_audio_parallel self e segs w in
  StronglySorted start_le (fst r)
  /\ fst r ≡ₚ omap (worker_result self e (fs w)) segs
  /\ (length (fst r) <= length segs)%nat
  /\ fs (snd r) = fs w.
Proof.
  intros Hp r. subst r.
  destruct (transcribe_audio_parallel_effects self e segs w) as (-> & F & _).
  split; [apply sort_by_start_sorted|].
  assert (sort_by_start (omap (worker_result self e (fs w))
                              (completion_order e segs))
          ≡ₚ omap (worker_result self e (fs w)) segs) as Hperm
      by now rewrite sort_by_start_perm, Hp.
  split; [exact Hperm|]. split; [|exact F].
  rewrite Hperm. apply omap_length_le.
Qed.

Lemma batch_results_sorted_witness :
  StronglySorted start_le
    (fst (transcribe_audio_parallel sample_transcriber second_fails_env
            [segment_1; segment_2; segment_3] extracted_world)).
Proof.
  refine (proj1 (batch_results_sorted sample_transcriber second_fails_env
                   [segment_1; segment_2; segment_3] extracted_world _)).
  reflexivity.
Defined.
(** ** Planner and extractor *)

(** The planner on a long recording is the loop from offset 0. *)
Lemma split_audio_file_kept (self : GeminiTranscriber) (e : Env)
    (audio_path : Path) (w w' : World) (fuel : nat) (segs : list Segment)
    (d : Q) :
  d = fst (get_audio_duration e audio_path w) ->
  (0 < max_segment_duration self)%Q -> (max_segment_duration self < d)%Q ->
  split_audio_file fuel self e audio_path w = Some (segs, w') ->
  exists full,
    strides self audio_path d 0 full
    /\ segs = List.filter (extracted e audio_path) full.
Proof.
  intros Ed Ht Hd Hrun.
  assert (Hloop : split_loop fuel self e audio_path d 0 []
                    (emit (EvProbe audio_path) w) = Some (segs, w')).
  { unfold split_audio_file in Hrun.
    pose proof (get_audio_duration_world e audio_path w) as Hw.
    destruct (get_audio_duration e audio_path w) as [d0 w1].
    cbn [fst snd] in Ed, Hw. subst d0 w1.
    destruct (Qle_bool d (max_segment_duration self)) eqn:E; [|exact Hrun].
    apply Qle_bool_iff in E. lra. }
  destruct (split_loop_filter self e audio_path d fuel
              (threshold_nonzero self Ht) 0 [] _ segs w' Hloop)
    as (full & Hs & Hsegs).
  exists full. split; [exact Hs|exact Hsegs].
Qed.

(** With a positive threshold the planner returns, and returns the same,
    with any fuel that covers the plan. *)
Lemma split_audio_file_settles (self : GeminiTranscriber) (e : Env)
    (audio_path : Path) (w : World) :
  (0 < max_segment_duration self)%Q ->
  exists r,
    forall fuel,
      (needed_fuel self e audio_path <= fuel)%nat ->
      split_audio_file fuel self e audio_path w = Some r.
Proof.
  intros Ht. unfold split_audio_file. rewrite get_audio_duration_probe.
  set (d := probe_duration e audio_path) in *.
  destruct (Qle_bool d (max_segment_duration self)) eqn:E; [eauto|].
  pose proof (Qle_bool_false_lt _ _ E) as Hd.
  destruct (split_loop_terminates self e audio_path d Ht
              (needed_fuel self e audio_path) 0 []
              (emit (EvProbe audio_path) w)) as [r Hr].
  - unfold needed_fuel. fold d.
    assert (0 <= Qceiling (d / max_segment_duration self)) as Hn0.
    { rewrite Zle_Qle. eapply Qle_trans; [|apply Qle_ceiling].
      apply Qle_shift_div_l; [exact Ht|]. change (inject_Z 0) with 0%Q.
      clearbody d. lra. }
    rewrite Z2Nat.id by exact Hn0. clearbody d.
    assert (d - 0 == d / max_segment_duration self * max_segment_duration self)%Q
      as -> by (field; lra).
    apply Qmult_le_compat_r; [apply Qle_ceiling|lra].
  - exists r. intros fuel Hf.
    eapply split_loop_fuel_mono; [exact Hf|exact Hr].
Qed.

(** X10. For a recording longer than the positive threshold, with float
    sums that are exact, and whatever the extractor does: the planner
    returns with any fuel that covers the plan, and it returns, in order,
    exactly those strides of the full plan whose extraction succeeded. A
    stride that is kept is still the [j]-th stride of the full plan,
    starting at [j * t] and extracted to the file numbered [j + 1]:
    dropped strides leave gaps and shift nothing. When nothing is kept, a
    file that needs transcription is reported as failed. *)
Theorem partial_extraction (self : GeminiTranscriber) (e : Env)
    (audio_path : Path) (w : World) :
  let t := max_segment_duration self in
  let d := probe_duration e audio_path in
  (0 < t)%Q -> (t < d)%Q -> exact_sums t d ->
  exists full segs w',
    (forall fuel,
       (needed_fuel self e audio_path <= fuel)%nat ->
       split_audio_file_binary64 fuel self e audio_path w = Some (segs, w'))
    /\ strides self audio_path d 0 full
    /\ Z.of_nat (length full) = Qceiling (d / t)
    /\ segs = List.filter (extracted e audio_path) full
    /\ segs `sublist_of` full
    /\ (forall j s, full !! j = Some s ->
          (seg_start s == inject_Z (Z.of_nat j) * t)%Q
          /\ seg_path s
             = mkPath (parent audio_path)
                      (fmt_0d 3 (Z.of_nat j + 1) ++ suffix audio_path))
    /\ (segs = [] -> needs_transcription (fs w) audio_path = true ->
        forall fuel,
          (needed_fuel self e audio_path <= fuel)%nat ->
          process_audio_file_async fuel self e audio_path w
          = Some (false, w')).
Proof.
  intros t d. subst t d. intros Ht Hd Hx.
  assert (Ed : probe_duration e audio_path
               = fst (get_audio_duration e audio_path w))
    by now rewrite get_audio_duration_probe.
  destruct (split_audio_file_settles self e audio_path w Ht)
    as [[segs w'] Hrun].
  destruct (split_audio_file_kept self e audio_path w w' _ segs _ Ed Ht Hd
              (Hrun _ (Nat.le_refl _))) as (full & Hs & Hsegs).
  exists full, segs, w'.
  assert (0 == inject_Z 0 * max_segment_duration self)%Q as H0
      by (simpl; ring).
  split; [|split; [exact Hs|split; [|split; [exact Hsegs|split; [|split]]]]].
  - intros fuel Hf. rewrite split_audio_file_binary64_exact;
      [now apply Hrun|exact Ht|now rewrite <- Ed].
  - rewrite (strides_length self audio_path _ Ht 0 full Hs 0 H0); [lia|lra].
  - rewrite Hsegs. apply list_filter_sublist.
  - intros j s Hj.
    destruct (strides_lookup self audio_path _ Ht 0 full Hs 0 j s H0 Hj)
      as (Hst & _ & Hp).
    split; [exact Hst|exact Hp].
  - intros Hnil Hneeds fuel Hf. unfold process_audio_file_async.
    rewrite Hneeds, (Hrun fuel Hf), Hnil. reflexivity.
Qed.

Lemma partial_extraction_witness :
  exists full segs w',
    split_audio_file_binary64 2 sample_transcriber first_stride_fails_env
                              sample_audio sample_world = Some (segs, w')
    /\ Z.of_nat (length full) = 2
    /\ segs = List.filter (extracted first_stride_fails_env sample_audio) full.
Proof.
  destruct (partial_extraction sample_transcriber first_stride_fails_env
              sample_audio sample_world)
    as (full & segs & w' & Hrun & _ & Hlen & Hseg & _).
  - reflexivity.
  - reflexivity.
  - split; [exists 1800; reflexivity|vm_compute; discriminate].
  - exists full, segs, w'. split; [apply Hrun; vm_compute; lia|].
    split; [exact Hlen|exact Hseg].
Defined.

Lemma uint_chars_inj (u1 u2 : Decimal.uint) :
  uint_chars u1 = uint_chars u2 -> u1 = u2.
Proof.
  revert u2. induction u1 as [|u1 IH|u1 IH|u1 IH|u1 IH|u1 IH|u1 IH|u1 IH|u1 IH
                              |u1 IH|u1 IH];
    intros u2; destruct u2; cbn [uint_chars]; unfold digit_char;
    intros H; try discriminate H; try reflexivity;
    injection H as H; f_equal; now apply IH.
Qed.

Lemma zeros_uint_chars (k : nat) (u : Decimal.uint) :
  repeat (digit_char 0) k ++ uint_chars u
  = uint_chars (Nat.iter k Decimal.D0 u).
Proof. induction k as [|k IH]; simpl; [reflexivity|now rewrite <- IH]. Qed.

(** Zero padding loses nothing: a non-negative index can be read back from
    its padded form. *)
Lemma fmt_0d_inj (w : nat) (z1 z2 : Z) :
  0 <= z1 -> 0 <= z2 -> fmt_0d w z1 = fmt_0d w z2 -> z1 = z2.
Proof.
  intros H1 H2. unfold fmt_0d, digits.
  assert ((z1 <? 0) = false) as -> by lia.
  assert ((z2 <? 0) = false) as -> by lia.
  rewrite !zeros_uint_chars. intros E. apply uint_chars_inj in E.
  apply (f_equal N.of_uint) in E.
  rewrite <- (DecimalN.Unsigned.of_uint_norm (Nat.iter _ _ (N.to_uint (Z.abs_N z1)))),
          <- (DecimalN.Unsigned.of_uint_norm (Nat.iter _ _ (N.to_uint (Z.abs_N z2))))
    in E.
  rewrite !DecimalFacts.unorm_iter_D0, !DecimalN.Unsigned.of_uint_norm,
          !DecimalN.Unsigned.of_to in E.
  lia.
Qed.

Lemma strides_paths_distinct (self : GeminiTranscriber) (audio_path : Path)
    (duration : Q) (full : list Segment) :
  (0 < max_segment_duration self)%Q ->
  strides self audio_path duration 0 full ->
  NoDup (seg_path <$> full).
Proof.
  intros Ht Hs. apply NoDup_alt. intros i j x Hi Hj.
  rewrite list_lookup_fmap in Hi, Hj.
  destruct (full !! i) as [si|] eqn:Ei; [|discriminate].
  destruct (full !! j) as [sj|] eqn:Ej; [|discriminate].
  injection Hi as Hi. injection Hj as Hj.
  assert (0 == inject_Z 0 * max_segment_duration self)%Q as H0
      by (simpl; ring).
  destruct (strides_lookup self audio_path duration Ht 0 full Hs 0 i si H0 Ei)
    as (_ & _ & Pi).
  destruct (strides_lookup self audio_path duration Ht 0 full Hs 0 j sj H0 Ej)
    as (_ & _ & Pj).
  rewrite <- Hj, Pi, Pj in Hi. injection Hi as Hi.
  apply app_inv_tail, fmt_0d_inj in Hi; lia.
Qed.

(** X11. Where the float sums are exact, the segments the planner
    returns for one recording are extracted to pairwise different files:
    no stride of a plan overwrites the file of another. *)
Theorem segment_files_distinct (self : GeminiTranscriber) (e : Env)
    (audio_path : Path) (w w' : World) (fuel : nat) (segs : list Segment) :
  (0 < max_segment_duration self)%Q ->
  exact_sums (max_segment_duration self) (probe_duration e audio_path) ->
  split_audio_file_binary64 fuel self e audio_path w = Some (segs, w') ->
  NoDup (seg_path <$> segs).
Proof.
  intros Ht Hx Hrun.
  assert (Ed : probe_duration e audio_path
               = fst (get_audio_duration e audio_path w))
    by now rewrite get_audio_duration_probe.
  rewrite split_audio_file_binary64_exact in Hrun;
    [|exact Ht|now rewrite <- Ed].
  destruct (Qlt_le_dec (max_segment_duration self)
              (fst (get_audio_duration e audio_path w))) as [Hd|Hd].
  - destruct (split_audio_file_kept self e audio_path w w' fuel segs _ eq_refl
                Ht Hd Hrun) as (full & Hs & ->).
    eapply sublist_NoDup; [|apply fmap_sublist, list_filter_sublist].
    now apply (strides_paths_distinct self audio_path
                 (fst (get_audio_duration e audio_path w))).
  - unfold split_audio_file in Hrun.
    destruct (get_audio_duration e audio_path w) as [d w1]. cbn [fst] in Hd.
    apply Qle_bool_iff in Hd. rewrite Hd in Hrun. injection Hrun as <- _.
    apply NoDup_singleton.
Qed.

Lemma segment_files_distinct_witness :
  NoDup (seg_path <$> sample_segments).
Proof.
  refine (segment_files_distinct sample_transcriber sample_env sample_audio
            sample_world
            (snd (default ([], sample_world)
                    (split_audio_file_binary64 2 sample_transcriber sample_env
                       sample_audio sample_world)))
            2 sample_segments _ _ _).
  - reflexivity.
  - split; [exists 1800; reflexivity|vm_compute; discriminate].
  - vm_compute. reflexivity.
Defined.

(** What the loop with the rounded sum does to the library: a path keeps
    its node, or it is the file of a stride and holds a regular file. *)
Lemma split_loop_binary64_touched (self : GeminiTranscriber) (e : Env)
    (audio_path : Path) (duration : Q) (fuel : nat) :
  forall current segments w segs w',
    split_loop_binary64 fuel self e audio_path duration current segments w
    = Some (segs, w') ->
    Forall (planned self audio_path (fs w)) segments ->
    extends_harmlessly w w'
    /\ (forall q, fs w' !! q = fs w !! q
                  \/ (is_file (fs w') q = true
                      /\ exists start, q = segment_file self audio_path start))
    /\ Forall (planned self audio_path (fs w')) segs.
Proof.
  induction fuel as [|fuel IH]; intros current segments w segs w' Hrun Hacc.
  - simpl in Hrun. destruct (Qle_bool duration current); [|discriminate].
    injection Hrun as <- <-.
    split; [apply extends_harmlessly_refl|]. split; [now left|exact Hacc].
  - cbn [split_loop_binary64] in Hrun.
    destruct (Qle_bool duration current).
    { injection Hrun as <- <-.
      split; [apply extends_harmlessly_refl|]. split; [now left|exact Hacc]. }
    pose proof (create_segment_file_effects self e audio_path current
                  (Qmin (binary64 (current + max_segment_duration self))
                        duration) w)
      as (Hh & Hfs & Hres).
    destruct (_create_segment_file _ _ _ _ _ _) as [sp w1].
    cbn [fst snd] in Hh, Hfs, Hres.
    apply IH in Hrun.
    + destruct Hrun as (Hh' & Hfr & Hp).
      split; [eapply extends_harmlessly_trans; eassumption|].
      split; [|exact Hp].
      intros q. destruct (Hfr q) as [Hq|Hq]; [|now right].
      destruct Hfs as [Hw1|(bytes & Hw1)]; [left; congruence|].
      destruct (decide (segment_file self audio_path current = q))
        as [<-|Hne].
      * right. split; [|now exists current].
        unfold is_file. now rewrite Hq, Hw1, lookup_insert_eq.
      * left. now rewrite Hq, Hw1, lookup_insert_ne.
    + assert (Forall (planned self audio_path (fs w1)) segments) as Hacc1.
      { destruct Hfs as [->|(bytes & ->)]; [exact Hacc|].
        eapply Forall_impl; [exact Hacc|]. intros s. apply planned_insert. }
      destruct Hres as [->|(bytes & -> & Hw1)]; [exact Hacc1|].
      apply Forall_app. split; [exact Hacc1|].
      constructor; [|constructor]. split; cbn [seg_path].
      * unfold is_file. now rewrite Hw1, lookup_insert_eq.
      * now exists current.
Qed.

(** X12. Whatever the threshold and whatever the extractor does, the
    planner leaves every path with the node it had, unless the path is the
    file of a stride, ["NNN" ++ suffix] in the directory of the recording,
    which then holds a regular file: the output of an extraction or what
    a failed one left behind. So nothing that existed disappears. The
    planner writes no artifact and unlinks nothing, and every segment it
    returns is the original itself or a regular file that exists when the
    planner returns. *)
Theorem planner_frame (self : GeminiTranscriber) (e : Env)
    (audio_path : Path) (w w' : World) (fuel : nat) (segs : list Segment) :
  split_audio_file_binary64 fuel self e audio_path w = Some (segs, w') ->
  (forall q, fs w' !! q = fs w !! q
             \/ (is_file (fs w') q = true
                 /\ exists start, q = segment_file self audio_path start))
  /\ (forall q, is_Some (fs w !! q) -> is_Some (fs w' !! q))
  /\ extends_harmlessly w w'
  /\ Forall (fun s => seg_path s = audio_path
                      \/ is_file (fs w') (seg_path s) = true) segs.
Proof.
  intros Hrun.
  assert (H : extends_harmlessly w w'
    /\ (forall q, fs w' !! q = fs w !! q
                  \/ (is_file (fs w') q = true
                      /\ exists start, q = segment_file self audio_path start))
    /\ Forall (fun s => seg_path s = audio_path
                        \/ planned self audio_path (fs w') s) segs).
  { unfold split_audio_file_binary64 in Hrun.
    pose proof (get_audio_duration_world e audio_path w) as Hw.
    destruct (get_audio_duration e audio_path w) as [d w1].
    cbn [snd] in Hw. subst w1.
    destruct (Qle_bool d (max_segment_duration self)).
    - injection Hrun as <- <-. split; [now apply emit_harmless|].
      split; [now left|]. constructor; [now left|constructor].
    - apply split_loop_binary64_touched in Hrun; [|constructor].
      destruct Hrun as (Hh & Hfs & Hp).
      split; [eapply extends_harmlessly_trans; [|exact Hh];
              now apply emit_harmless|].
      split; [exact Hfs|].
      eapply Forall_impl; [exact Hp|]. intros s Hs. now right. }
  destruct H as (Hh & Hfs & Hp).
  split; [exact Hfs|]. split; [|split; [exact Hh|]].
  - intros q Hq. destruct (Hfs q) as [->|[Hf _]]; [exact Hq|].
    unfold is_file in Hf. destruct (fs w' !! q); [eauto|discriminate].
  - eapply Forall_impl; [exact Hp|]. intros s [?|[? _]]; auto.
Qed.

Lemma planner_frame_witness :
  is_Some (fs (snd (default ([], sample_world)
                      (split_audio_file_binary64 2 sample_transcriber
                         first_stride_fails_env sample_audio sample_world)))
           !! sample_audio).
Proof.
  refine (proj1 (proj2 (planner_frame sample_transcriber
                          first_stride_fails_env sample_audio sample_world
                          _ 2
                          [mkSegment (mkPath sample_root (lit "002.mp3"))
                                     (inject_Z 1800) (inject_Z 2700)] _))
                sample_audio _).
  - vm_compute. reflexivity.
  - vm_compute. eauto.
Defined.

(** A stride whose extraction fails is not returned, and the output the
    failed run created stays in the library. *)
Lemma failed_extraction_leftover :
  match split_audio_file_binary64 2 sample_transcriber first_stride_fails_env
          sample_audio sample_world with
  | Some (segs, w') =>
      List.map seg_path segs = [mkPath sample_root (lit "002.mp3")]
      /\ fs w' !! mkPath sample_root (lit "001.mp3") = Some (RegularFile [])
  | None => False
  end.
Proof. vm_compute. split; reflexivity. Qed.

(** ** Merger, cleanup and the run over all files *)

(** X13. Whatever the number of results, the per-segment listing of a merge
    holds, in the order given, one entry for each result whose stripped
    text is not empty, with that result's offsets; the segment count of a
    non-empty merge counts every result, so it is never below the length of
    the listing; and for results as the worker returns them the listing has
    one entry per result. *)
Theorem merge_listing (e : Env) (rs : list TranscriptionResult) :
  let m := merge_transcription_results e rs in
  merged_segments m = listing rs
  /\ (rs <> [] -> total_segments m = Some (length rs))
  /\ (length (merged_segments m) <= length rs)%nat
  /\ (Forall (fun r => text r <> [] /\ strip (text r) = text r) rs ->
      merged_segments m = entry_of <$> rs).
Proof.
  intros m.
  assert (merged_segments m = listing rs) as Hl.
  { subst m. unfold merge_transcription_results, enumerate.
    destruct rs as [|r rs]; [reflexivity|].
    pose proof (merge_loop_listing (length (r :: rs)) (r :: rs) 0 [] []) as H.
    destruct (fold_left _ _ _) as [full_text merged]. exact H. }
  split; [exact Hl|]. split; [|split].
  - intros Hne. subst m. unfold merge_transcription_results.
    destruct rs as [|r rs]; [congruence|]. now destruct (fold_left _ _ _).
  - rewrite Hl. apply listing_length.
  - intros Hw. rewrite Hl. clear Hl m.
    induction Hw as [|r rs [Hne Hs] _ IH]; [reflexivity|].
    cbn [listing fmap list_fmap]. rewrite Hs, <- IH.
    destruct (text r) eqn:E; [congruence|]. unfold entry_of. now rewrite E.
Qed.

Lemma unlink_noop (e : Env) (p : Path) (w : World) :
  is_file (fs w) p && unlink_ok e p = false -> fs (unlink e p w) = fs w.
Proof. unfold unlink. cbn [emit fs]. now intros ->. Qed.

Lemma cleanup_keeps (e : Env) (original : Path) (segments : list Segment) :
  forall w q,
    ~ removable e segments original (fs w) q ->
    fs (cleanup_segments e segments original w) !! q = fs w !! q.
Proof.
  induction segments as [|s rest IH]; intros w q Hn; cbn [cleanup_segments];
    [reflexivity|].
  set (w1 := if bool_decide (seg_path s <> original)
                && exists_path (fs w) (seg_path s)
             then unlink e (seg_path s) w else w).
  assert (fs w1 !! q = fs w !! q) as H1.
  { subst w1.
    destruct (bool_decide (seg_path s <> original)
              && exists_path (fs w) (seg_path s)) eqn:B; [|reflexivity].
    apply andb_true_iff in B as [B _]. apply bool_decide_eq_true in B.
    destruct (decide (q = seg_path s)) as [->|Hne].
    - destruct (is_file (fs w) (seg_path s) && unlink_ok e (seg_path s)) eqn:R.
      + exfalso. apply Hn. apply andb_true_iff in R as [R1 R2].
        split; [|auto]. cbn [List.map]. now left.
      + now rewrite unlink_noop.
    - destruct (unlink_effects e (seg_path s) w) as (_ & F & _). now apply F. }
  rewrite IH; [exact H1|].
  intros (Hin & Hne & Hf & Hok). apply Hn.
  split; [cbn [List.map]; now right|]. split; [exact Hne|].
  split; [|exact Hok]. unfold is_file in *. now rewrite <- H1.
Qed.

Lemma cleanup_removes (e : Env) (original : Path) (segments : list Segment)
    (w : World) (q : Path) :
  removable e segments original (fs w) q ->
  fs (cleanup_segments e segments original w) !! q = None.
Proof.
  intros (Hin & Hne & Hf & Hok).
  apply list_elem_of_In, in_map_iff in Hin as (s & <- & Hs).
  destruct (cleanup_segments_effects e original segments w) as (_ & _ & H).
  apply H; [now apply list_elem_of_In|assumption..].
Qed.

(** X14. Cleanup removes exactly the listed paths that are not the
    original, are regular files and whose unlink succeeds; every other
    path keeps its node, nothing is created, and the only events are
    unlinks of paths other than the original. Running it a second time on
    the same list changes nothing any more. *)
Theorem cleanup_exact (e : Env) (original : Path) (segments : list Segment)
    (w : World) :
  let w' := cleanup_segments e segments original w in
  (forall q, removable e segments original (fs w) q -> fs w' !! q = None)
  /\ (forall q, ~ removable e segments original (fs w) q ->
                fs w' !! q = fs w !! q)
  /\ (exists evs, log w' = log w ++ evs /\ Forall (unlinks_other original) evs)
  /\ fs (cleanup_segments e segments original w') = fs w'.
Proof.
  intros w'. split; [intros q; apply cleanup_removes|].
  split; [intros q; apply cleanup_keeps|]. split.
  - apply cleanup_segments_effects.
  - apply map_eq. intros q. apply cleanup_keeps.
    intros (Hin & Hne & Hf & Hok).
    destruct (is_file (fs w) q) eqn:Hfw.
    + assert (fs w' !! q = None) as Hnone
          by (apply cleanup_removes; repeat split; assumption).
      unfold is_file in Hf. now rewrite Hnone in Hf.
    + assert (fs w' !! q = fs w !! q) as Hsame.
      { apply cleanup_keeps. intros (_ & _ & Hf' & _). congruence. }
      unfold is_file in Hf, Hfw. rewrite Hsame in Hf. congruence.
Qed.

(** ** The run over all files *)







Lemma process_all_skips (self : GeminiTranscriber) (e : Env) (fuel : nat)
    (w : World) (audio_files : list Path) :
  Forall (fun p => needs_transcription (fs w) p = false) audio_files ->
  forall counts,
    process_all fuel self e audio_files counts w
    = Some (mkSummary (processed_count counts)
                      (skipped_count counts + length audio_files)
                      (failed_count counts), w).
Proof.
  induction 1 as [|p l Hp _ IH]; intros counts; cbn [process_all].
  - rewrite Nat.add_0_r. now destruct counts.
  - rewrite Hp. cbn [negb]. rewrite IH. cbn. do 3 f_equal. lia.
Qed.

(** X18. When every audio file of the library already has its artifact, a
    run returns with any fuel, counts every file as skipped and changes
    nothing: the file system is the same and not a single event, probe,
    remote call or write, is logged. *)
Theorem rerun_is_idle (self : GeminiTranscriber) (e : Env) (w : World)
    (fuel : nat) :
  (forall p, In p (find_audio_files self (fs w)) ->
             needs_transcription (fs w) p = false) ->
  process_all_audio_files fuel self e w
  = Some (mkSummary 0 (length (find_audio_files self (fs w))) 0, w).
Proof.
  intros H. unfold process_all_audio_files.
  rewrite process_all_skips; [reflexivity|].
  apply Forall_forall. intros p Hp. apply H. now apply list_elem_of_In.
Qed.

Lemma rerun_is_idle_witness :
  process_all_audio_files 0 sample_transcriber down_env transcribed_world
  = Some (mkSummary 0 (length (find_audio_files sample_transcriber
                                 (fs transcribed_world))) 0,
          transcribed_world).
Proof.
  apply (rerun_is_idle sample_transcriber down_env transcribed_world 0).
  assert (find_audio_files sample_transcriber (fs transcribed_world)
          = [sample_audio]) as -> by (vm_compute; reflexivity).
  intros p [<-|[]]. vm_compute. reflexivity.
Defined.

(** ** Whole runs on one file *)

Lemma list_map_fmap {A B} (f : A -> B) (l : list A) : List.map f l = f <$> l.
Proof. induction l as [|x l IH]; [reflexivity|simpl; now rewrite IH]. Qed.

(** X15. A run on a file that needs transcription, whose batch produced
    results, whose artifact is written and whose unlinks all succeed,
    returns [True]; afterwards the artifact holds the rendered transcript
    and every path of a returned segment other than the original is gone.
    Every path that is neither the artifact nor the file of a stride keeps
    the node it had before the run. The write and the cleanup touch the
    artifact and the returned segments only: any other path, the output a
    failed extraction left behind included, stays as the planner left
    it. *)
Theorem successful_run_frame (fuel : nat) (self : GeminiTranscriber) (e : Env)
    (audio_path : Path) (w w1 w2 : World) (segs : list Segment)
    (results : list TranscriptionResult) :
  needs_transcription (fs w) audio_path = true ->
  suffix audio_path <> lit ".txt" ->
  split_audio_file fuel self e audio_path w = Some (segs, w1) ->
  segs <> [] ->
  transcribe_audio_parallel self e segs w1 = (results, w2) ->
  results <> [] ->
  write_text e (get_transcript_path audio_path) = WriteOk ->
  (forall s, s ∈ segs -> unlink_ok e (seg_path s) = true) ->
  let tp := get_transcript_path audio_path in
  exists w',
    process_audio_file_async fuel self e audio_path w = Some (true, w')
    /\ fs w' !! tp
       = Some (RegularFile
                 (transcript_content self e audio_path
                    (merge_transcription_results e results)))
    /\ (forall s, s ∈ segs -> seg_path s <> audio_path ->
                  fs w' !! seg_path s = None)
    /\ (forall q, q <> tp ->
                  (forall start, q <> segment_file self audio_path start) ->
                  fs w' !! q = fs w !! q)
    /\ (forall q, q <> tp -> q ∉ seg_path <$> segs ->
                  fs w' !! q = fs w1 !! q).
Proof.
  intros Hneeds Hsfx Es Hsegs Et Hres Hwrite Hunlink tp.
  destruct (split_audio_file_effects _ _ _ _ _ _ _ Es) as (_ & Hframe & Hpl).
  destruct (transcribe_audio_parallel_effects self e segs w1) as (_ & Hf2 & _).
  rewrite Et in Hf2. cbn [snd] in Hf2.
  assert (Hseg_tp : forall s, s ∈ segs -> seg_path s <> tp).
  { intros s Hs. rewrite Forall_forall in Hpl.
    destruct (Hpl s Hs) as [->|[_ [start ->]]].
    - intros E. symmetry in E. now apply transcript_path_fresh in E.
    - now apply segment_file_not_transcript. }
  set (merged := merge_transcription_results e results).
  pose proof (save_transcript_effects self e audio_path merged w2)
    as (_ & Hf3 & Hw3).
  fold tp in Hf3, Hw3. fold tp in Hwrite. rewrite Hwrite in Hw3.
  assert (Hproc : process_audio_file_async fuel self e audio_path w
    = match save_transcript self e audio_path merged w2 with
      | (true, w3) => Some (true, cleanup_segments e segs audio_path w3)
      | (false, w3) => Some (false, w3)
      end).
  { unfold process_audio_file_async. rewrite Hneeds, Es. cbn [negb].
    destruct segs; [congruence|]. rewrite Et.
    destruct results; [congruence|]. reflexivity. }
  rewrite Hproc. clear Hproc.
  destruct (save_transcript self e audio_path merged w2) as [saved w3].
  cbn [fst snd] in Hf3, Hw3. destruct Hw3 as [-> Hfs3].
  exists (cleanup_segments e segs audio_path w3).
  assert (Hrest : forall q, q <> tp -> q ∉ seg_path <$> segs ->
    fs (cleanup_segments e segs audio_path w3) !! q = fs w1 !! q).
  { intros q Hq Hnot. rewrite cleanup_keeps.
    - rewrite Hf3 by exact Hq. now rewrite Hf2.
    - intros (Hin & _). now rewrite list_map_fmap in Hin. }
  split; [reflexivity|]. split; [|split; [|split; [|exact Hrest]]].
  - rewrite cleanup_keeps; [exact Hfs3|].
    intros (Hin & _). rewrite list_map_fmap in Hin.
    apply list_elem_of_fmap in Hin as (s & E & Hs). now apply (Hseg_tp s).
  - intros s Hs Hne. apply cleanup_removes.
    split; [rewrite list_map_fmap; apply list_elem_of_fmap; eauto|].
    split; [exact Hne|]. split; [|now apply Hunlink].
    rewrite Forall_forall in Hpl.
    destruct (Hpl s Hs) as [?|[Hfile _]]; [congruence|].
    unfold is_file. rewrite Hf3 by now apply Hseg_tp.
    rewrite Hf2. exact Hfile.
  - intros q Hq Hnot. rewrite cleanup_keeps.
    + rewrite Hf3 by exact Hq. rewrite Hf2. now apply Hframe.
    + intros (Hin & Hne & _). rewrite list_map_fmap in Hin.
      apply list_elem_of_fmap in Hin as (s & -> & Hs).
      rewrite Forall_forall in Hpl.
      destruct (Hpl s Hs) as [Ho|[_ [start Hst]]]; [congruence|].
      now apply (Hnot start).
Qed.

Lemma successful_run_frame_witness :
  exists w',
    process_audio_file_async 2 sample_transcriber sample_env sample_audio
                             sample_world = Some (true, w')
    /\ fs w' !! mkPath sample_root (lit "001.mp3") = None.
Proof.
  destruct (successful_run_frame 2 sample_transcriber sample_env sample_audio
              sample_world
              (snd (default ([], sample_world)
                      (split_audio_file 2 sample_transcriber sample_env
                         sample_audio sample_world)))
              (snd (transcribe_audio_parallel sample_transcriber sample_env
                      sample_segments
                      (snd (default ([], sample_world)
                              (split_audio_file 2 sample_transcriber
                                 sample_env sample_audio sample_world)))))
              sample_segments
              (fst (transcribe_audio_parallel sample_transcriber sample_env
                      sample_segments
                      (snd (default ([], sample_world)
                              (split_audio_file 2 sample_transcriber
                                 sample_env sample_audio sample_world))))))
    as (w' & Hp & _ & Hgone & _).
  - vm_compute. reflexivity.
  - vm_compute. discriminate.
  - vm_compute. reflexivity.
  - discriminate.
  - now destruct (transcribe_audio_parallel _ _ _ _).
  - vm_compute. discriminate.
  - reflexivity.
  - intros s _. reflexivity.
  - exists w'. split; [exact Hp|].
    apply (Hgone (mkSegment (mkPath sample_root (lit "001.mp3")) 0
                            (inject_Z 1800))).
    + apply list_elem_of_In. left. reflexivity.
    + vm_compute. discriminate.
Defined.

(** ** A recording that fits one request *)

Lemma worker_first_answer (self : GeminiTranscriber) (e : Env) (s : Segment)
    (w : World) (b : N) (bytes : list N) (chunks : list (option pystr)) :
  fs w !! seg_path s = Some (RegularFile (b :: bytes)) ->
  (0 < max_retries self)%nat ->
  generate_content_stream e (seg_path s) 0 = StreamChunks chunks ->
  strip (accumulate chunks) <> [] ->
  transcribe_segment_async self e s w
  = (Some (mkResult (strip (accumulate chunks)) (seg_start s) (seg_end s)
                    (seg_path s) (time_time e)),
     mkWorld (fs w) (log w ++ [EvRead (seg_path s); EvApiCall (seg_path s) 0])).
Proof.
  intros Hfile Hretries Hstream Htext.
  unfold transcribe_segment_async, encode_audio_to_base64,
    _call_gemini_api_with_retry.
  cbn [emit fs log]. rewrite Hfile.
  destruct (max_retries self) as [|m]; [lia|].
  cbn [seq retry_loop]. rewrite Hstream.
  destruct (strip (accumulate chunks)) as [|c t] eqn:E; [congruence|].
  rewrite <- E, strip_idempotent.
  unfold emit. cbn [fs log]. now rewrite <- app_assoc.
Qed.

Lemma merge_one_result (e : Env) (r : TranscriptionResult) (x : pystr) :
  text r = strip x -> strip x <> [] ->
  merge_transcription_results e [r]
  = mkMerged (strip x) [mkMergedSegment (start_time r) (end_time r) (strip x)]
             (Some 1%nat) (Some (time_time e)).
Proof.
  intros Htext Hne.
  unfold merge_transcription_results, enumerate.
  cbn [length seq combine fold_left merge_step].
  rewrite Htext, strip_idempotent.
  destruct (strip x) as [|c t] eqn:E; [congruence|].
  change (1 <? 1)%nat with false. cbn [app].
  now rewrite <- E, strip_idempotent.
Qed.

(** X16. A recording no longer than the threshold, readable and non-empty,
    whose first request is answered with visible text, is handled without
    extraction, pause or deletion: the run probes, schedules one task on
    the original file, reads it, calls the service once and writes the
    artifact, which consists of the four header lines with a block count of
    1 and the stripped answer, with no block label and no detailed
    listing. *)
Theorem short_file_run (fuel : nat) (self : GeminiTranscriber) (e : Env)
    (audio_path : Path) (w : World) (b : N) (bytes : list N)
    (chunks : list (option pystr)) :
  needs_transcription (fs w) audio_path = true ->
  (probe_duration e audio_path <= max_segment_duration self)%Q ->
  fs w !! audio_path = Some (RegularFile (b :: bytes)) ->
  (0 < max_retries self)%nat ->
  generate_content_stream e audio_path 0 = StreamChunks chunks ->
  strip (accumulate chunks) <> [] ->
  completion_order e [mkSegment audio_path 0 (probe_duration e audio_path)]
    ≡ₚ [mkSegment audio_path 0 (probe_duration e audio_path)] ->
  write_text e (get_transcript_path audio_path) = WriteOk ->
  process_audio_file_async fuel self e audio_path w
  = Some (true,
          mkWorld
            (<[get_transcript_path audio_path :=
                 RegularFile (artifact_head self e audio_path 1
                                (strip (accumulate chunks)))]> (fs w))
            (log w ++ [EvProbe audio_path; EvTaskScheduled audio_path;
                       EvRead audio_path; EvApiCall audio_path 0;
                       EvTaskDone audio_path;
                       EvWrite (get_transcript_path audio_path)])).
Proof.
  intros Hneeds Hshort Hfile Hretries Hstream Htext Horder Hwrite.
  set (s := mkSegment audio_path 0 (probe_duration e audio_path)) in *.
  apply Permutation_sym, Permutation_length_1_inv in Horder.
  unfold process_audio_file_async. rewrite Hneeds. cbn [negb].
  unfold split_audio_file. rewrite get_audio_duration_probe.
  apply Qle_bool_iff in Hshort. rewrite Hshort. fold s.
  unfold transcribe_audio_parallel, schedule_all. cbn [fold_left].
  rewrite Horder. cbn [await_all].
  rewrite (worker_first_answer self e s _ b bytes chunks)
    by (try exact Hfile; assumption).
  cbn [app fold_left sort_by_start insert_by_start].
  unfold sort_by_start. cbn [fold_left insert_by_start].
  rewrite (merge_one_result e _ (accumulate chunks)) by (try reflexivity; assumption).
  unfold save_transcript. rewrite Hwrite.
  cbn [cleanup_segments seg_path s].
  rewrite bool_decide_eq_false_2 by (intros H; now apply H).
  cbn [andb]. f_equal. f_equal.
  unfold emit, set_fs. cbn [fs log seg_path s]. f_equal.
  - f_equal. f_equal. unfold transcript_content, artifact_head, detail_section.
    cbn [total_segments merged_text merged_segments default length].
    change (1 <? 1)%nat with false. rewrite strip_idempotent.
    now rewrite !app_nil_r.
  - now rewrite <- !app_assoc.
Qed.

Lemma short_file_run_witness :
  process_audio_file_async 0 sample_transcriber short_env sample_audio
                           sample_world
  = Some (true,
          mkWorld
            (<[get_transcript_path sample_audio :=
                 RegularFile (artifact_head sample_transcriber short_env
                                sample_audio 1
                                (strip (accumulate [Some (lit "hello")])))]>
               (fs sample_world))
            (log sample_world
             ++ [EvProbe sample_audio; EvTaskScheduled sample_audio;
                 EvRead sample_audio; EvApiCall sample_audio 0;
                 EvTaskDone sample_audio;
                 EvWrite (get_transcript_path sample_audio)])).
Proof.
  apply (short_file_run 0 sample_transcriber short_env sample_audio
           sample_world 73%N [68; 51]%N [Some (lit "hello")]).
  - vm_compute. reflexivity.
  - vm_compute. discriminate.
  - vm_compute. reflexivity.
  - vm_compute. lia.
  - reflexivity.
  - vm_compute. discriminate.
  - reflexivity.
  - reflexivity.
Defined.
